(** * Orbit: transform log, request flow, record cache operators, fork/rebase

    A shallow embedding of the parts of Orbit that the specification's
    claims are about:

    - [Records]: the record data model, the [ExampleSyncRecordCache]
      storage and the [SyncTransformOperators] that patch it;
    - [RequestFlow]: the [@updatable] and [@pullable] request flows with
      their events, on top of the transform log;
    - [Memory]: [MemorySource] with [merge], [rebase] and [rollback];
    - [Scenarios]: a memory source over the example cache, on which the
      theorems are exercised.

    JavaScript objects used as dictionaries are [gmap]s, arrays are lists,
    [undefined] is [None], exceptions are the [Throw] case of [Outcome],
    and [this] is an explicit state that every method takes and returns. *)

From stdpp Require Import gmap strings list fin_maps.

Set Default Proof Using "Type".

(** ** Exceptions and results *)

Inductive Exception :=
| TypeError (msg : string)
| Assertion (msg : string)
| NotLoggedException (transformId : string)
| OutOfRangeException (position : Z)
| OtherError (msg : string).

Inductive Outcome (A : Type) :=
| Ok (a : A)
| Throw (e : Exception).
Arguments Ok {A} a.
Arguments Throw {A} e.

(** ** Records, the example cache and the transform operators *)

Module Records.

(** Attribute values are [unknown] in the source; scalars are enough here. *)
Inductive JSValue :=
| JNull
| JBool (b : bool)
| JNum (n : Z)
| JStr (s : string).

Record RecordIdentity := mkIdentity {
  identity_type : string;
  identity_id : string }.

(** [data] of a relationship: [null] or one identity for a to-one
    relationship, an array for a to-many relationship. *)
Inductive RelationshipData :=
| HasOne (r : option RecordIdentity)
| HasMany (rs : list RecordIdentity).

(** A relationship object; an absent [data] is [None]. [rel_meta] stands
    for the members other than [data] ([links], [meta]). *)
Record RecordRelationship := mkRelationship {
  rel_data : option RelationshipData;
  rel_meta : option JSValue }.

Record OrbitRecord := mkRecord {
  rec_type : string;
  rec_id : string;
  keys : option (gmap string string);
  attributes : option (gmap string JSValue);
  relationships : option (gmap string RecordRelationship) }.

Definition identityOf (r : OrbitRecord) : RecordIdentity :=
  mkIdentity (rec_type r) (rec_id r).

#[global] Instance RecordIdentity_eq_dec : EqDecision RecordIdentity.
Proof. solve_decision. Defined.

Inductive RecordOperation :=
| AddRecordOperation (record : OrbitRecord)
| UpdateRecordOperation (record : OrbitRecord)
| RemoveRecordOperation (record : RecordIdentity)
| ReplaceKeyOperation (record : RecordIdentity) (key value : string)
| ReplaceAttributeOperation
    (record : RecordIdentity) (attribute : string) (value : JSValue)
| AddToRelatedRecordsOperation
    (record : RecordIdentity) (relationship : string)
    (relatedRecord : RecordIdentity)
| RemoveFromRelatedRecordsOperation
    (record : RecordIdentity) (relationship : string)
    (relatedRecord : RecordIdentity)
| ReplaceRelatedRecordsOperation
    (record : RecordIdentity) (relationship : string)
    (relatedRecords : list RecordIdentity)
| ReplaceRelatedRecordOperation
    (record : RecordIdentity) (relationship : string)
    (relatedRecord : option RecordIdentity).

(** What an operator returns: a record or [undefined]. *)
Definition RecordOperationResult := option OrbitRecord.

(** *** @orbit/utils and @orbit/records helpers *)

(** [clone] is a deep copy; values carry no identity here. *)
Definition clone {A : Type} (a : A) : A := a.

(** [cloneRecordIdentity]: a record with [type] and [id] and nothing else. *)
Definition cloneRecordIdentity (i : RecordIdentity) : OrbitRecord :=
  mkRecord (identity_type i) (identity_id i) None None None.

(** [equalRecordIdentities] on two identity objects. *)
Definition equalRecordIdentities (a b : RecordIdentity) : bool :=
  String.eqb (identity_type a) (identity_type b)
  && String.eqb (identity_id a) (identity_id b).

(** [recordsInclude]: a loop that returns at the first equal identity. *)
Fixpoint recordsInclude (records : list RecordIdentity) (m : RecordIdentity)
  : bool :=
  match records with
  | [] => false
  | r :: rest => if equalRecordIdentities r m then true
                 else recordsInclude rest m
  end.

(** [deepGet(record, ['relationships', relationship, 'data'])]. *)
Definition deepGet_data (record : OrbitRecord) (relationship : string)
  : option RelationshipData :=
  rels ← relationships record; rel ← rels !! relationship; rel_data rel.

(** [deepGet(record, ['keys', key])] and
    [deepGet(record, ['attributes', attribute])]. *)
Definition deepGet_key (record : OrbitRecord) (key : string) : option string :=
  ks ← keys record; ks !! key.

Definition deepGet_attribute (record : OrbitRecord) (attribute : string)
  : option JSValue :=
  ats ← attributes record; ats !! attribute.

(** [deepSet(record, ['keys', key], value)]: a missing [keys] object is
    created on the way. The boolean is [deepSet]'s result: [false] when the
    member already is [=== value]. *)
Definition deepSet_key (record : OrbitRecord) (key value : string)
  : bool * OrbitRecord :=
  let ks := default ∅ (keys record) in
  (negb (bool_decide (ks !! key = Some value)),
   mkRecord (rec_type record) (rec_id record)
     (Some (<[key := value]> ks)) (attributes record) (relationships record)).

Definition JSValue_eqb (a b : JSValue) : bool :=
  match a, b with
  | JNull, JNull => true
  | JBool x, JBool y => Bool.eqb x y
  | JNum x, JNum y => Z.eqb x y
  | JStr x, JStr y => String.eqb x y
  | _, _ => false
  end.

(** [deepSet(record, ['attributes', attribute], value)]. *)
Definition deepSet_attribute
    (record : OrbitRecord) (attribute : string) (value : JSValue)
  : bool * OrbitRecord :=
  let ats := default ∅ (attributes record) in
  (negb (from_option (JSValue_eqb value) false (ats !! attribute)),
   mkRecord (rec_type record) (rec_id record)
     (keys record) (Some (<[attribute := value]> ats)) (relationships record)).

(** [deepSet(record, ['relationships', relationship, 'data'], value)]:
    missing [relationships] and [relationships[relationship]] objects are
    created, the other members of an existing relationship object stay. *)
Definition deepSet_data
    (record : OrbitRecord) (relationship : string) (value : RelationshipData)
  : OrbitRecord :=
  let rels := default ∅ (relationships record) in
  let rel := default (mkRelationship None None) (rels !! relationship) in
  mkRecord (rec_type record) (rec_id record) (keys record) (attributes record)
    (Some (<[relationship := mkRelationship (Some value) (rel_meta rel)]> rels)).

(** Modelled from the spec: [mergeRecords] of @orbit/records is not in the
    sources; section 4.3 has [updateRecord] deep-merge the incoming record
    over the current one, member by member, the incoming value winning. *)
Definition mergeSection {V : Type} (current update : option (gmap string V))
  : option (gmap string V) :=
  match current, update with
  | Some c, Some u => Some (u ∪ c)
  | Some c, None => Some c
  | None, u => u
  end.

Definition mergeRecords (current : option OrbitRecord) (updates : OrbitRecord)
  : OrbitRecord :=
  match current with
  | Some cur =>
      mkRecord (rec_type cur) (rec_id cur)
        (mergeSection (keys cur) (keys updates))
        (mergeSection (attributes cur) (attributes updates))
        (mergeSection (relationships cur) (relationships updates))
  | None => clone updates
  end.

(** *** ExampleSyncRecordCache *)

(** Modelled from the spec: [RecordKeyMap] is not in the sources; section
    4.3 describes it as the reverse index
    [type -> keyName -> keyValue -> id]. *)
Definition RecordKeyMap := gmap (string * string * string) string.

Definition pushRecord (km : RecordKeyMap) (record : OrbitRecord)
  : RecordKeyMap :=
  match keys record with
  | None => km
  | Some ks =>
      map_fold (fun k v acc => <[(rec_type record, k, v) := rec_id record]> acc)
        km ks
  end.

Record SyncRecordCache := mkCache {
  _records : gmap string (gmap string OrbitRecord);
  keyMap : option RecordKeyMap }.

(** [deepGet(this._records, [identity.type, identity.id])]. *)
Definition getRecordSync (cache : SyncRecordCache) (i : RecordIdentity)
  : option OrbitRecord :=
  byId ← _records cache !! identity_type i; byId !! identity_id i.

(** [deepSet(this._records, [record.type, record.id], record)]. *)
Definition setRecordSync (cache : SyncRecordCache) (record : OrbitRecord)
  : SyncRecordCache :=
  let byId := default ∅ (_records cache !! rec_type record) in
  mkCache (<[rec_type record := <[rec_id record := record]> byId]> (_records cache))
    (keyMap cache).

Definition removeRecordSync (cache : SyncRecordCache) (i : RecordIdentity)
  : SyncRecordCache * option OrbitRecord :=
  match getRecordSync cache i with
  | Some record =>
      (mkCache (<[identity_type i :=
                   delete (identity_id i)
                     (default ∅ (_records cache !! identity_type i))]>
                  (_records cache))
         (keyMap cache),
       Some record)
  | None => (cache, None)
  end.

(** [if (cache.keyMap) cache.keyMap.pushRecord(record)]. *)
Definition keyMapPush (cache : SyncRecordCache) (record : OrbitRecord)
  : SyncRecordCache :=
  match keyMap cache with
  | Some km => mkCache (_records cache) (Some (pushRecord km record))
  | None => cache
  end.

(** *** SyncTransformOperators

    Each operator takes the cache and the operation's members and returns
    the new cache with the operator's result. An operator that throws has
    not written to the cache before, so [Throw] carries no cache. *)

Definition OperatorResult : Type :=
  Outcome (SyncRecordCache * RecordOperationResult).

(** [currentRecord ? clone(currentRecord) : cloneRecordIdentity(op.record)] *)
Definition cloneOrShell (cache : SyncRecordCache) (i : RecordIdentity)
  : OrbitRecord :=
  match getRecordSync cache i with
  | Some currentRecord => clone currentRecord
  | None => cloneRecordIdentity i
  end.

Definition addRecord (cache : SyncRecordCache) (record : OrbitRecord)
  : OperatorResult :=
  Ok (keyMapPush (setRecordSync cache record) record, Some record).

Definition updateRecord (cache : SyncRecordCache) (record : OrbitRecord)
  : OperatorResult :=
  let currentRecord := getRecordSync cache (identityOf record) in
  let mergedRecord := mergeRecords currentRecord record in
  Ok (keyMapPush (setRecordSync cache mergedRecord) mergedRecord,
      Some mergedRecord).

Definition removeRecord (cache : SyncRecordCache) (i : RecordIdentity)
  : OperatorResult :=
  let '(cache', removed) := removeRecordSync cache i in Ok (cache', removed).

Definition replaceKey
    (cache : SyncRecordCache) (i : RecordIdentity) (key value : string)
  : OperatorResult :=
  let record := (deepSet_key (cloneOrShell cache i) key value).2 in
  Ok (keyMapPush (setRecordSync cache record) record, Some record).

Definition replaceAttribute
    (cache : SyncRecordCache) (i : RecordIdentity)
    (attribute : string) (value : JSValue)
  : OperatorResult :=
  let record := (deepSet_attribute (cloneOrShell cache i) attribute value).2 in
  Ok (setRecordSync cache record, Some record).

(** [deepGet(record, [...]) || []]: [undefined] and [null] are falsy and
    give a new empty array, an array or an identity object is kept. *)
Definition orEmptyArray (data : option RelationshipData) : RelationshipData :=
  match data with
  | None | Some (HasOne None) => HasMany []
  | Some d => d
  end.

(** [recordsInclude] loops with [for ... of]: a to-one identity object is
    not iterable and the loop throws a [TypeError] before anything is
    written. On an array, the related record is pushed in place when it is
    not found, so the later [deepSet] stores the longer array whether or
    not it is the one the record already holds. *)
Definition addToRelatedRecords
    (cache : SyncRecordCache) (i : RecordIdentity)
    (relationship : string) (relatedRecord : RecordIdentity)
  : OperatorResult :=
  let record := cloneOrShell cache i in
  match orEmptyArray (deepGet_data record relationship) with
  | HasMany relatedRecords =>
      if negb (recordsInclude relatedRecords relatedRecord) then
        let record' :=
          deepSet_data record relationship
            (HasMany (relatedRecords ++ [relatedRecord])) in
        Ok (setRecordSync cache record', Some record')
      else Ok (cache, Some record)
  | HasOne _ => Throw (TypeError "records is not iterable")
  end.

(** Without a current record the function falls off its end: nothing is
    written and the result is [undefined]. [filter] returns a new array, so
    the [deepSet] that guards [setRecordSync] always returns [true]. *)
Definition removeFromRelatedRecords
    (cache : SyncRecordCache) (i : RecordIdentity)
    (relationship : string) (relatedRecord : RecordIdentity)
  : OperatorResult :=
  match getRecordSync cache i with
  | Some currentRecord =>
      let record := clone currentRecord in
      match deepGet_data record relationship with
      | Some (HasMany relatedRecords) =>
          let relatedRecords' :=
            List.filter (fun r => negb (equalRecordIdentities r relatedRecord))
              relatedRecords in
          let record' := deepSet_data record relationship (HasMany relatedRecords') in
          Ok (setRecordSync cache record', Some record')
      | Some (HasOne (Some _)) =>
          Throw (TypeError "relatedRecords.filter is not a function")
      | Some (HasOne None) | None => Ok (cache, Some record)
      end
  | None => Ok (cache, None)
  end.

(** The operation's array is never the one the record holds, so [deepSet]
    returns [true]. *)
Definition replaceRelatedRecords
    (cache : SyncRecordCache) (i : RecordIdentity)
    (relationship : string) (relatedRecords : list RecordIdentity)
  : OperatorResult :=
  let record' :=
    deepSet_data (cloneOrShell cache i) relationship (HasMany relatedRecords) in
  Ok (setRecordSync cache record', Some record').

(** [deepSet] returns [false] only for [null] over [null]; an identity
    object of the operation is never the one the record holds. *)
Definition replaceRelatedRecord
    (cache : SyncRecordCache) (i : RecordIdentity)
    (relationship : string) (relatedRecord : option RecordIdentity)
  : OperatorResult :=
  let record := cloneOrShell cache i in
  match deepGet_data record relationship, relatedRecord with
  | Some (HasOne None), None => Ok (cache, Some record)
  | _, _ =>
      let record' := deepSet_data record relationship (HasOne relatedRecord) in
      Ok (setRecordSync cache record', Some record')
  end.

(** [SyncTransformOperators[operation.op](cache, transform, operation)] *)
Definition applyOperator (cache : SyncRecordCache) (operation : RecordOperation)
  : OperatorResult :=
  match operation with
  | AddRecordOperation r => addRecord cache r
  | UpdateRecordOperation r => updateRecord cache r
  | RemoveRecordOperation i => removeRecord cache i
  | ReplaceKeyOperation i k v => replaceKey cache i k v
  | ReplaceAttributeOperation i a v => replaceAttribute cache i a v
  | AddToRelatedRecordsOperation i rel x => addToRelatedRecords cache i rel x
  | RemoveFromRelatedRecordsOperation i rel x =>
      removeFromRelatedRecords cache i rel x
  | ReplaceRelatedRecordsOperation i rel xs =>
      replaceRelatedRecords cache i rel xs
  | ReplaceRelatedRecordOperation i rel x => replaceRelatedRecord cache i rel x
  end.

(** The claim about [removeFromRelatedRecords] in the spec's words: a
    missing base record is replaced by a shell whose relationship holds an
    empty array, and the shell is stored. *)
Definition removeFromRelatedRecords_shell
    (i : RecordIdentity) (relationship : string) : OrbitRecord :=
  deepSet_data (cloneRecordIdentity i) relationship (HasMany []).

(** The relationship is usable as a to-many one: its [data] is absent,
    [null] or an array. *)
Definition toManyOrAbsent (data : option RelationshipData) : Prop :=
  match data with Some (HasOne (Some _)) => False | _ => True end.

(** The claim in the spec's words: the operator stores a shell record
    whose relationship holds an empty array. *)
Definition removeFromRelatedRecords_creates_shell
    (cache : SyncRecordCache) (i : RecordIdentity)
    (relationship : string) (relatedRecord : RecordIdentity) : Prop :=
  ∃ cache' result,
    removeFromRelatedRecords cache i relationship relatedRecord
    = Ok (cache', result)
    ∧ getRecordSync cache' i
      = Some (removeFromRelatedRecords_shell i relationship).

(** *** Example data: the schema and records of the cache tests *)

Definition schemaCache : SyncRecordCache :=
  mkCache {[ "planet" := ∅; "moon" := ∅; "solarSystem" := ∅ ]} (Some ∅).

Definition jupiterId : RecordIdentity := mkIdentity "planet" "jupiter".
Definition moon1 : RecordIdentity := mkIdentity "moon" "moon1".
Definition moon2 : RecordIdentity := mkIdentity "moon" "moon2".

Definition jupiter : OrbitRecord :=
  mkRecord "planet" "jupiter" None
    (Some {[ "name" := JStr "Jupiter"; "classification" := JStr "gas giant" ]})
    None.

Definition jupiterCache : SyncRecordCache :=
  setRecordSync schemaCache jupiter.

(** *** ExampleSyncRecordCache: records in bulk, inverse relationships *)

(** [getRecordsSync(identities)] for an array of identities: the loop
    pushes the records it finds. (With a type name the method returns the
    values of [_records[type]] in property order, which a [gmap] does not
    keep; that branch is not modelled.) *)
Definition getRecordsSync
    (cache : SyncRecordCache) (identities : list RecordIdentity)
  : list OrbitRecord :=
  foldl (fun records i =>
           match getRecordSync cache i with
           | Some record => records ++ [record]
           | None => records
           end) [] identities.

Definition setRecordsSync
    (cache : SyncRecordCache) (records : list OrbitRecord) : SyncRecordCache :=
  foldl setRecordSync cache records.

(** [removeRecordsSync]: each identity is looked up in the cache as the
    loop has left it, so a repeated identity is found once. *)
Definition removeRecordsSync
    (cache : SyncRecordCache) (identities : list RecordIdentity)
  : SyncRecordCache * list OrbitRecord :=
  foldl (fun '(cache, records) i =>
           match removeRecordSync cache i with
           | (cache', Some record) => (cache', records ++ [record])
           | (cache', None) => (cache', records)
           end) (cache, []) identities.

Record RecordRelationshipIdentity := mkRelationshipIdentity {
  rri_record : RecordIdentity;
  rri_relationship : string;
  rri_relatedRecord : RecordIdentity }.

(** The member [_inverseRelationships]: by type and id of the related
    record. The three methods below read and write only this member. *)
Abbreviation InverseRelationships :=
  (gmap string (gmap string (list RecordRelationshipIdentity))).

Definition lookupInverse
    (inverse : InverseRelationships) (i : RecordIdentity)
  : option (list RecordRelationshipIdentity) :=
  byId ← inverse !! identity_type i; byId !! identity_id i.

Definition storeInverse
    (inverse : InverseRelationships) (i : RecordIdentity)
    (rels : list RecordRelationshipIdentity) : InverseRelationships :=
  <[identity_type i :=
      <[identity_id i := rels]> (default ∅ (inverse !! identity_type i))]>
    inverse.

(** [deepGet(...) || []]: an array, also an empty one, is truthy. *)
Definition getInverseRelationshipsSync
    (inverse : InverseRelationships) (i : RecordIdentity)
  : list RecordRelationshipIdentity :=
  default [] (lookupInverse inverse i).

Definition addInverseRelationshipsSync
    (inverse : InverseRelationships)
    (relationships : list RecordRelationshipIdentity) : InverseRelationships :=
  foldl (fun inverse relationship =>
           let rels :=
             match lookupInverse inverse (rri_relatedRecord relationship) with
             | Some rels => clone rels
             | None => []
             end in
           storeInverse inverse (rri_relatedRecord relationship)
             (rels ++ [relationship]))
    inverse relationships.

(** The filter of [removeInverseRelationshipsSync] keeps an entry unless
    its record and relationship name are those of the one to remove. *)
Definition sameEdge (a b : RecordRelationshipIdentity) : bool :=
  equalRecordIdentities (rri_record a) (rri_record b)
  && String.eqb (rri_relationship a) (rri_relationship b).

Definition removeInverseRelationshipsSync
    (inverse : InverseRelationships)
    (relationships : list RecordRelationshipIdentity) : InverseRelationships :=
  foldl (fun inverse relationship =>
           match lookupInverse inverse (rri_relatedRecord relationship) with
           | Some rels =>
               storeInverse inverse (rri_relatedRecord relationship)
                 (List.filter (fun rel => negb (sameEdge rel relationship)) rels)
           | None => inverse
           end)
    inverse relationships.

(** Every record is stored under its own type and id. [setRecordSync]
    keeps this, and the operators rely on it when they look a record up
    again. *)
Definition wellKeyed (cache : SyncRecordCache) : Prop :=
  ∀ i record, getRecordSync cache i = Some record → identityOf record = i.

(** Observational equality of caches: the same record, or none, under
    every identity. *)
Definition sameRecords (c1 c2 : SyncRecordCache) : Prop :=
  ∀ i, getRecordSync c1 i = getRecordSync c2 i.

(** *** Records and predicates of the properties below *)

(** A moon, and Jupiter with one moon in its [moons] relationship. *)
Definition europa : OrbitRecord :=
  mkRecord "moon" "europa" None (Some {[ "name" := JStr "Europa" ]}) None.

(** The inverse relationships that point at [i]. *)
Definition pointsAt (i : RecordIdentity) (rel : RecordRelationshipIdentity)
  : bool :=
  bool_decide (rri_relatedRecord rel = i).

(** An entry that [removeInverseRelationshipsSync] filters out for one
    of the relationships to remove that point at [i]. *)
Definition removedBy
    (i : RecordIdentity) (relationships : list RecordRelationshipIdentity)
    (entry : RecordRelationshipIdentity) : bool :=
  existsb (fun r => pointsAt i r && sameEdge entry r) relationships.

Definition jupiterWithMoon : OrbitRecord :=
  mkRecord "planet" "jupiter" None None
    (Some {[ "moons" := mkRelationship (Some (HasMany [moon1])) None ]}).

(** *** Storage lemmas *)

Lemma identityOf_shell i : identityOf (cloneRecordIdentity i) = i.
Proof. by destruct i. Qed.

Lemma getRecordSync_set_eq cache record :
  getRecordSync (setRecordSync cache record) (identityOf record) = Some record.
Proof.
  unfold getRecordSync, setRecordSync; simpl.
  rewrite lookup_insert_eq; simpl. by rewrite lookup_insert_eq.
Qed.

Lemma getRecordSync_set_ne cache record j :
  j ≠ identityOf record →
  getRecordSync (setRecordSync cache record) j = getRecordSync cache j.
Proof.
  intros Hne. unfold getRecordSync, setRecordSync; simpl.
  destruct (decide (rec_type record = identity_type j)) as [Ht|Ht].
  - rewrite Ht, lookup_insert_eq; simpl.
    assert (rec_id record ≠ identity_id j) as Hid.
    { intros Hid. apply Hne. destruct j; unfold identityOf; simpl in *.
      by rewrite Ht, Hid. }
    rewrite lookup_insert_ne by done.
    by destruct (_records cache !! identity_type j).
  - by rewrite lookup_insert_ne.
Qed.

Lemma getRecordSync_keyMapPush cache record j :
  getRecordSync (keyMapPush cache record) j = getRecordSync cache j.
Proof. unfold keyMapPush. by destruct (keyMap cache). Qed.

Lemma equalRecordIdentities_spec a b :
  equalRecordIdentities a b = true ↔ a = b.
Proof.
  unfold equalRecordIdentities. rewrite andb_true_iff, !String.eqb_eq.
  destruct a, b; simpl; split; [intros [-> ->]; done | by inversion 1].
Qed.

Lemma recordsInclude_spec rs m : recordsInclude rs m = true ↔ m ∈ rs.
Proof.
  induction rs as [|r rs IH]; simpl.
  - split; [done | by intros ?%elem_of_nil].
  - destruct (equalRecordIdentities r m) eqn:E.
    + apply equalRecordIdentities_spec in E as ->. split; [|done].
      intros _. apply elem_of_cons; by left.
    + rewrite IH, elem_of_cons. split; [by right|].
      intros [->|?]; [|done].
      assert (equalRecordIdentities r r = true) as E'
        by by apply equalRecordIdentities_spec.
      congruence.
Qed.

Lemma recordsInclude_snoc rs m : recordsInclude (rs ++ [m]) m = true.
Proof. apply recordsInclude_spec, elem_of_app. right. apply elem_of_cons; by left. Qed.

(** *** replaceKey and replaceAttribute *)

Lemma replaceKey_missing cache i key value :
  getRecordSync cache i = None →
  ∃ cache',
    replaceKey cache i key value
    = Ok (cache', Some (mkRecord (identity_type i) (identity_id i)
                          (Some {[ key := value ]}) None None))
    ∧ getRecordSync cache' i
      = Some (mkRecord (identity_type i) (identity_id i)
                (Some {[ key := value ]}) None None)
    ∧ ∀ j, j ≠ i → getRecordSync cache' j = getRecordSync cache j.
Proof.
  intros Hnone. unfold replaceKey, cloneOrShell. rewrite Hnone. simpl.
  eexists; split; [reflexivity|]. split.
  - rewrite getRecordSync_keyMapPush.
    by rewrite <- (getRecordSync_set_eq cache); destruct i.
  - intros j Hj. rewrite getRecordSync_keyMapPush.
    apply getRecordSync_set_ne. by destruct i.
Qed.

Lemma replaceKey_existing cache i key value cur :
  getRecordSync cache i = Some cur →
  ∃ cache',
    replaceKey cache i key value
    = Ok (cache', Some (mkRecord (rec_type cur) (rec_id cur)
                          (Some (<[key := value]> (default ∅ (keys cur))))
                          (attributes cur) (relationships cur)))
    ∧ getRecordSync cache' (identityOf cur)
      = Some (mkRecord (rec_type cur) (rec_id cur)
                (Some (<[key := value]> (default ∅ (keys cur))))
                (attributes cur) (relationships cur))
    ∧ ∀ j, j ≠ identityOf cur → getRecordSync cache' j = getRecordSync cache j.
Proof.
  intros Hcur. unfold replaceKey, cloneOrShell. rewrite Hcur. simpl.
  eexists; split; [reflexivity|]. split.
  - rewrite getRecordSync_keyMapPush. by rewrite <- (getRecordSync_set_eq cache).
  - intros j Hj. rewrite getRecordSync_keyMapPush.
    by apply getRecordSync_set_ne.
Qed.

Lemma replaceAttribute_missing cache i attribute value :
  getRecordSync cache i = None →
  ∃ cache',
    replaceAttribute cache i attribute value
    = Ok (cache', Some (mkRecord (identity_type i) (identity_id i)
                          None (Some {[ attribute := value ]}) None))
    ∧ getRecordSync cache' i
      = Some (mkRecord (identity_type i) (identity_id i)
                None (Some {[ attribute := value ]}) None)
    ∧ ∀ j, j ≠ i → getRecordSync cache' j = getRecordSync cache j.
Proof.
  intros Hnone. unfold replaceAttribute, cloneOrShell. rewrite Hnone. simpl.
  eexists; split; [reflexivity|]. split.
  - by rewrite <- (getRecordSync_set_eq cache); destruct i.
  - intros j Hj. apply getRecordSync_set_ne. by destruct i.
Qed.

Lemma replaceAttribute_existing cache i attribute value cur :
  getRecordSync cache i = Some cur →
  ∃ cache',
    replaceAttribute cache i attribute value
    = Ok (cache', Some (mkRecord (rec_type cur) (rec_id cur) (keys cur)
                          (Some (<[attribute := value]>
                                   (default ∅ (attributes cur))))
                          (relationships cur)))
    ∧ getRecordSync cache' (identityOf cur)
      = Some (mkRecord (rec_type cur) (rec_id cur) (keys cur)
                (Some (<[attribute := value]> (default ∅ (attributes cur))))
                (relationships cur))
    ∧ ∀ j, j ≠ identityOf cur → getRecordSync cache' j = getRecordSync cache j.
Proof.
  intros Hcur. unfold replaceAttribute, cloneOrShell. rewrite Hcur. simpl.
  eexists; split; [reflexivity|]. split.
  - by rewrite <- (getRecordSync_set_eq cache).
  - intros j Hj. by apply getRecordSync_set_ne.
Qed.

(** C8. [replaceKey] and [replaceAttribute] follow one pattern. When the
    cache has no record for the identity, the operator builds a shell with
    the identity's [type] and [id] only, sets [keys[key]] (respectively
    [attributes[attribute]]) in it, stores it and returns it. When the
    cache has a current record, the stored and returned record is that
    record with the one member set and everything else as it was. Records
    under other identities are not touched. *)
Theorem replaceKey_replaceAttribute_shell_or_clone
    (cache : SyncRecordCache) (i : RecordIdentity)
    (key value attribute : string) (aval : JSValue)
    (current : option OrbitRecord) :
  getRecordSync cache i = current →
  let base := from_option clone (cloneRecordIdentity i) current in
  let withKey :=
    mkRecord (rec_type base) (rec_id base)
      (Some (<[key := value]> (default ∅ (keys base))))
      (attributes base) (relationships base) in
  let withAttribute :=
    mkRecord (rec_type base) (rec_id base) (keys base)
      (Some (<[attribute := aval]> (default ∅ (attributes base))))
      (relationships base) in
  (current = None →
     base = mkRecord (identity_type i) (identity_id i) None None None)
  ∧ (∃ cache',
       replaceKey cache i key value = Ok (cache', Some withKey)
       ∧ getRecordSync cache' (identityOf base) = Some withKey
       ∧ ∀ j, j ≠ identityOf base → getRecordSync cache' j = getRecordSync cache j)
  ∧ (∃ cache',
       replaceAttribute cache i attribute aval = Ok (cache', Some withAttribute)
       ∧ getRecordSync cache' (identityOf base) = Some withAttribute
       ∧ ∀ j, j ≠ identityOf base → getRecordSync cache' j = getRecordSync cache j).
Proof.
  intros Hget. destruct current as [cur|]; simpl.
  - split; [done|]. split.
    + apply (replaceKey_existing _ _ _ _ _ Hget).
    + apply (replaceAttribute_existing _ _ _ _ _ Hget).
  - split; [done|]. rewrite identityOf_shell. split.
    + destruct (replaceKey_missing _ _ key value Hget) as (c & ? & ? & ?).
      exists c. by rewrite insert_empty.
    + destruct (replaceAttribute_missing _ _ attribute aval Hget) as (c & ? & ? & ?).
      exists c. by rewrite insert_empty.
Qed.

(** The cache tests' two cases: a shell for a missing planet, and the
    stored planet with one more member. *)
Lemma replaceKey_replaceAttribute_witness :
  getRecordSync schemaCache jupiterId = None
  ∧ (∃ cache',
       replaceKey schemaCache jupiterId "remoteId" "123"
       = Ok (cache', Some (mkRecord "planet" "jupiter"
                             (Some {[ "remoteId" := "123" ]}) None None)))
  ∧ (∃ cache',
       replaceAttribute schemaCache jupiterId "order" (JNum 5)
       = Ok (cache', Some (mkRecord "planet" "jupiter"
                             None (Some {[ "order" := JNum 5 ]}) None))).
Proof.
  split; [reflexivity|].
  destruct (replaceKey_replaceAttribute_shell_or_clone
              schemaCache jupiterId "remoteId" "123" "order" (JNum 5) None
              eq_refl)
    as (_ & (c1 & H1 & _) & (c2 & H2 & _)).
  split; [exists c1; exact H1 | exists c2; exact H2].
Defined.

(** *** removeFromRelatedRecords without a base record *)

(** C6, as the code has it. For every cache without a record for the
    identity, [removeFromRelatedRecords] writes nothing and returns
    [undefined]: the cache is the one it was given, and no shell record is
    stored. *)
Theorem removeFromRelatedRecords_missing_no_write
    (cache : SyncRecordCache) (i : RecordIdentity)
    (relationship : string) (relatedRecord : RecordIdentity) :
  getRecordSync cache i = None →
  removeFromRelatedRecords cache i relationship relatedRecord = Ok (cache, None)
  ∧ ¬ removeFromRelatedRecords_creates_shell cache i relationship relatedRecord.
Proof.
  intros Hnone. unfold removeFromRelatedRecords_creates_shell,
    removeFromRelatedRecords. rewrite Hnone. split; [done|].
  intros (cache' & result & Heq & Hget). by simplify_eq.
Qed.

Lemma removeFromRelatedRecords_missing_witness :
  getRecordSync schemaCache jupiterId = None
  ∧ removeFromRelatedRecords schemaCache jupiterId "moons" moon2
    = Ok (schemaCache, None).
Proof.
  split; [reflexivity|].
  apply (removeFromRelatedRecords_missing_no_write
           schemaCache jupiterId "moons" moon2 eq_refl).
Defined.

(** C6 as the spec states it fails on the input of the cache test "when
    base record does not exist": the planet is absent, and after the
    operator it still is. *)
Lemma removeFromRelatedRecords_no_shell :
  getRecordSync schemaCache jupiterId = None
  ∧ ¬ removeFromRelatedRecords_creates_shell schemaCache jupiterId "moons" moon2.
Proof.
  split; [reflexivity|].
  unfold removeFromRelatedRecords_creates_shell.
  intros (cache' & result & Heq & Hget).
  vm_compute in Heq. injection Heq as <- _.
  vm_compute in Hget. discriminate Hget.
Qed.

(** *** addToRelatedRecords *)

Lemma deepGet_deepSet_data record relationship value :
  deepGet_data (deepSet_data record relationship value) relationship
  = Some value.
Proof.
  unfold deepGet_data, deepSet_data; simpl. by rewrite lookup_insert_eq.
Qed.

Lemma setRecordSync_twice cache record :
  setRecordSync (setRecordSync cache record) record = setRecordSync cache record.
Proof.
  unfold setRecordSync; simpl. f_equal.
  rewrite lookup_insert_eq; simpl.
  by rewrite !insert_insert_eq.
Qed.

Lemma cloneOrShell_set_eq cache record i :
  identityOf record = i → cloneOrShell (setRecordSync cache record) i = record.
Proof.
  intros <-. unfold cloneOrShell. by rewrite getRecordSync_set_eq.
Qed.

Lemma cloneOrShell_set_ne cache record i :
  identityOf record ≠ i →
  cloneOrShell (setRecordSync cache record) i = cloneOrShell cache i.
Proof.
  intros Hne. unfold cloneOrShell. by rewrite getRecordSync_set_ne.
Qed.

(** A second application changes nothing, whatever the first one did. *)
Lemma addToRelatedRecords_twice cache i relationship relatedRecord cache1 r1 :
  addToRelatedRecords cache i relationship relatedRecord = Ok (cache1, r1) →
  addToRelatedRecords cache1 i relationship relatedRecord = Ok (cache1, r1).
Proof.
  unfold addToRelatedRecords.
  set (record := cloneOrShell cache i).
  destruct (orEmptyArray (deepGet_data record relationship))
    as [y|rs] eqn:Hdata; [done|].
  destruct (recordsInclude rs relatedRecord) eqn:Hin; simpl.
  { intros [= <- <-]. fold record. by rewrite Hdata, Hin. }
  set (record' := deepSet_data record relationship _).
  intros [= <- <-].
  destruct (decide (identityOf record = i)) as [Hi|Hi].
  - rewrite cloneOrShell_set_eq by done. subst record'.
    rewrite deepGet_deepSet_data; simpl. by rewrite recordsInclude_snoc.
  - rewrite cloneOrShell_set_ne by done. fold record. rewrite Hdata, Hin; simpl.
    fold record'. by rewrite setRecordSync_twice.
Qed.

Lemma orEmptyArray_toMany data :
  toManyOrAbsent data → ∃ rs, orEmptyArray data = HasMany rs.
Proof. destruct data as [[[y|]|rs]|]; simpl; [done|eauto..]. Qed.

Lemma addToRelatedRecords_total cache i relationship relatedRecord :
  toManyOrAbsent (deepGet_data (cloneOrShell cache i) relationship) →
  ∃ cache1 r1,
    addToRelatedRecords cache i relationship relatedRecord
    = Ok (cache1, Some r1).
Proof.
  intros [rs Hrs]%orEmptyArray_toMany. unfold addToRelatedRecords.
  rewrite Hrs. destruct (recordsInclude rs relatedRecord); simpl; eauto.
Qed.

(** C7. [addToRelatedRecords] is idempotent. For every cache, identity,
    relationship whose data is usable as a to-many set, and related
    identity, the operator succeeds, and applying it again to the cache it
    produced gives that same cache and returns that same record: the
    related identity is appended only when [recordsInclude] does not find
    it. *)
Theorem addToRelatedRecords_idempotent
    (cache : SyncRecordCache) (i : RecordIdentity)
    (relationship : string) (relatedRecord : RecordIdentity) :
  toManyOrAbsent (deepGet_data (cloneOrShell cache i) relationship) →
  ∃ cache1 r1,
    addToRelatedRecords cache i relationship relatedRecord
    = Ok (cache1, Some r1)
    ∧ addToRelatedRecords cache1 i relationship relatedRecord
      = Ok (cache1, Some r1)
    ∧ ∃ rs, deepGet_data r1 relationship = Some (HasMany rs)
            ∧ relatedRecord ∈ rs.
Proof.
  intros Hmany.
  destruct (addToRelatedRecords_total _ _ _ relatedRecord Hmany)
    as (cache1 & r1 & Hadd).
  exists cache1, r1. split; [done|]. split.
  { by apply addToRelatedRecords_twice in Hadd. }
  revert Hadd. unfold addToRelatedRecords.
  destruct (orEmptyArray_toMany _ Hmany) as [rs Hrs]. rewrite Hrs.
  destruct (recordsInclude rs relatedRecord) eqn:Hin; simpl; intros [= <- <-].
  - exists rs. split; [|by apply recordsInclude_spec].
    revert Hrs Hin.
    destruct (deepGet_data _ relationship) as [[[y|]|rs']|]; simpl;
      intros [= <-]; [done| |done]. congruence.
  - rewrite deepGet_deepSet_data. eexists; split; [done|].
    apply elem_of_app; right. apply elem_of_cons; by left.
Qed.

(** The cache test's input: a planet with no relationships gains a moon,
    and a second application leaves cache and result as they are. *)
Lemma addToRelatedRecords_idempotent_witness :
  toManyOrAbsent (deepGet_data (cloneOrShell jupiterCache jupiterId) "moons")
  ∧ ∃ cache1 r1,
      addToRelatedRecords jupiterCache jupiterId "moons" moon1
      = Ok (cache1, Some r1)
      ∧ addToRelatedRecords cache1 jupiterId "moons" moon1
        = Ok (cache1, Some r1)
      ∧ deepGet_data r1 "moons" = Some (HasMany [moon1]).
Proof.
  assert (toManyOrAbsent
            (deepGet_data (cloneOrShell jupiterCache jupiterId) "moons"))
    as Hmany by exact I.
  split; [exact Hmany|].
  destruct (addToRelatedRecords_idempotent jupiterCache jupiterId "moons" moon1
              Hmany) as (cache1 & r1 & H1 & H2 & _).
  exists cache1, r1. split; [exact H1|]. split; [exact H2|].
  vm_compute in H1. injection H1 as _ <-. reflexivity.
Defined.

(** *** Records in bulk *)

Lemma getRecordSync_remove cache i j :
  getRecordSync (removeRecordSync cache i).1 j
  = if decide (j = i) then None else getRecordSync cache j.
Proof.
  unfold removeRecordSync.
  destruct (getRecordSync cache i) as [record|] eqn:Hget; simpl.
  2:{ case_decide; [by subst|done]. }
  unfold getRecordSync in *; simpl.
  destruct (_records cache !! identity_type i) as [byId|] eqn:Htype;
    [|done]. simpl in *.
  destruct (decide (identity_type i = identity_type j)) as [Ht|Ht].
  - rewrite <- Ht, lookup_insert_eq; simpl.
    destruct (decide (identity_id i = identity_id j)) as [Hid|Hid].
    + rewrite <- Hid, lookup_delete_eq.
      rewrite decide_True; [done|]. destruct i, j; simpl in *; congruence.
    + rewrite lookup_delete_ne by done.
      rewrite decide_False by congruence. by rewrite Htype.
  - rewrite lookup_insert_ne by done.
    rewrite decide_False by congruence. done.
Qed.

Lemma removeRecordSync_result cache i :
  (removeRecordSync cache i).2 = getRecordSync cache i.
Proof. unfold removeRecordSync. by destruct (getRecordSync cache i). Qed.

Lemma getRecordsSync_omap_from cache identities acc :
  foldl (fun records i =>
           match getRecordSync cache i with
           | Some record => records ++ [record]
           | None => records
           end) acc identities
  = acc ++ omap (getRecordSync cache) identities.
Proof.
  revert acc. induction identities as [|i ids IH]; intros acc; simpl.
  - by rewrite app_nil_r.
  - rewrite IH. destruct (getRecordSync cache i); [|done].
    by rewrite <- app_assoc.
Qed.

(** The loop of [getRecordsSync] keeps the records found, in the order of
    the identities, and drops the identities without a record. *)
Lemma getRecordsSync_omap cache identities :
  getRecordsSync cache identities = omap (getRecordSync cache) identities.
Proof. apply (getRecordsSync_omap_from cache identities []). Qed.

Lemma setRecordsSync_lookup_other cache records j :
  j ∉ (identityOf <$> records) →
  getRecordSync (setRecordsSync cache records) j = getRecordSync cache j.
Proof.
  unfold setRecordsSync. revert cache.
  induction records as [|r rs IH]; intros cache Hnotin; simpl; [done|].
  rewrite fmap_cons in Hnotin. apply not_elem_of_cons in Hnotin as [Hne Hnotin].
  rewrite IH by done. by apply getRecordSync_set_ne.
Qed.

(** X1. Records stored in bulk are read back in bulk: after
    [setRecordsSync] of records with distinct identities,
    [getRecordsSync] of their identities returns these records, in order;
    identities that have no record in the cache add nothing to the
    result. *)
Theorem setRecordsSync_getRecordsSync
    (cache : SyncRecordCache) (records : list OrbitRecord)
    (unknown : list RecordIdentity) :
  NoDup (identityOf <$> records) →
  Forall (fun i => getRecordSync cache i = None ∧ i ∉ (identityOf <$> records))
    unknown →
  getRecordsSync (setRecordsSync cache records)
    (unknown ++ (identityOf <$> records))
  = records.
Proof.
  intros Hnd Hunknown. rewrite getRecordsSync_omap, omap_app.
  assert (omap (getRecordSync (setRecordsSync cache records)) unknown = [])
    as ->.
  { induction Hunknown as [|i unknown [Hnone Hnotin] _ IH]; simpl; [done|].
    rewrite setRecordsSync_lookup_other by done. by rewrite Hnone. }
  simpl. clear Hunknown. unfold setRecordsSync. revert cache.
  induction records as [|r rs IH]; intros cache; simpl; [done|].
  rewrite fmap_cons in Hnd. apply NoDup_cons in Hnd as [Hnotin Hnd].
  fold (setRecordsSync (setRecordSync cache r) rs).
  rewrite setRecordsSync_lookup_other by done.
  rewrite getRecordSync_set_eq. by rewrite (IH Hnd).
Qed.

Lemma setRecordsSync_getRecordsSync_witness :
  getRecordsSync (setRecordsSync schemaCache [jupiter; europa])
    ([moon1] ++ [jupiterId; mkIdentity "moon" "europa"])
  = [jupiter; europa].
Proof.
  apply (setRecordsSync_getRecordsSync schemaCache [jupiter; europa] [moon1]).
  - apply (bool_decide_unpack _). vm_compute. exact I.
  - apply Forall_singleton. split; [reflexivity|].
    apply (bool_decide_unpack _). vm_compute. exact I.
Defined.

Lemma omap_ext_in {A B : Type} (f g : A → option B) (l : list A) :
  (∀ x, x ∈ l → f x = g x) → omap f l = omap g l.
Proof.
  induction l as [|x l IH]; intros Hext; simpl; [done|].
  rewrite (Hext x) by (apply elem_of_cons; by left).
  assert (omap f l = omap g l) as Hrest.
  { apply IH. intros y Hy. apply Hext, elem_of_cons. by right. }
  destruct (g x); [f_equal|]; exact Hrest.
Qed.

Lemma removeRecordsSync_from cache identities acc :
  NoDup identities →
  let result :=
    foldl (fun '(cache, records) i =>
             match removeRecordSync cache i with
             | (cache', Some record) => (cache', records ++ [record])
             | (cache', None) => (cache', records)
             end) (cache, acc) identities in
  result.2 = acc ++ omap (getRecordSync cache) identities
  ∧ ∀ j, getRecordSync result.1 j
         = if bool_decide (j ∈ identities) then None else getRecordSync cache j.
Proof.
  revert cache acc. induction identities as [|i ids IH];
    intros cache acc Hnd.
  { simpl. rewrite app_nil_r. split; [done|]. by intros j. }
  cbn [foldl]. apply NoDup_cons in Hnd as [Hnotin Hnd].
  pose proof (removeRecordSync_result cache i) as Hres.
  pose proof (getRecordSync_remove cache i) as Hlook.
  destruct (removeRecordSync cache i) as [cache' removed]; simpl in *.
  assert (omap (getRecordSync cache') ids = omap (getRecordSync cache) ids)
    as Hrest.
  { apply omap_ext_in. intros j Hj. rewrite Hlook.
    rewrite decide_False; [done|]. by intros ->. }
  assert (∀ acc',
            acc' = acc ++ from_option (fun r => [r]) [] (getRecordSync cache i) →
            let result :=
              foldl (fun '(cache, records) i =>
                       match removeRecordSync cache i with
                       | (cache', Some record) => (cache', records ++ [record])
                       | (cache', None) => (cache', records)
                       end) (cache', acc') ids in
            result.2 = acc ++ match getRecordSync cache i with
                              | Some r => r :: omap (getRecordSync cache) ids
                              | None => omap (getRecordSync cache) ids
                              end
            ∧ ∀ j, getRecordSync result.1 j
                   = if bool_decide (j ∈ i :: ids) then None
                     else getRecordSync cache j) as Hstep.
  { intros acc' ->. destruct (IH cache' (acc ++ from_option (fun r => [r]) []
                                           (getRecordSync cache i)) Hnd)
      as [Hrecords Hlookup].
    split.
    - rewrite Hrecords, Hrest, <- app_assoc.
      by destruct (getRecordSync cache i).
    - intros j. rewrite Hlookup, Hlook.
      destruct (decide (j = i)) as [->|Hne].
      + rewrite (bool_decide_eq_true_2 (i ∈ i :: ids))
          by (apply elem_of_cons; by left).
        by case_bool_decide.
      + case_bool_decide as Hin.
        * rewrite bool_decide_eq_true_2; [done|]. apply elem_of_cons. by right.
        * rewrite bool_decide_eq_false_2; [done|].
          by intros [?|?]%elem_of_cons. }
  subst removed. destruct (getRecordSync cache i) as [record|]; simpl in Hstep.
  - by apply (Hstep (acc ++ [record])).
  - apply (Hstep acc). by rewrite app_nil_r.
Qed.

(** X2. [removeRecordsSync] of distinct identities returns the records
    the cache held for them, in order, skipping the identities without a
    record; afterwards none of the identities has a record, and every
    other identity has the record it had. *)
Theorem removeRecordsSync_removes
    (cache : SyncRecordCache) (identities : list RecordIdentity) :
  NoDup identities →
  (removeRecordsSync cache identities).2 = getRecordsSync cache identities
  ∧ (∀ i, i ∈ identities →
          getRecordSync (removeRecordsSync cache identities).1 i = None)
  ∧ (∀ j, j ∉ identities →
          getRecordSync (removeRecordsSync cache identities).1 j
          = getRecordSync cache j).
Proof.
  intros Hnd. destruct (removeRecordsSync_from cache identities [] Hnd)
    as [Hrecords Hlookup].
  unfold removeRecordsSync. split; [by rewrite getRecordsSync_omap|].
  split; intros j Hj; rewrite Hlookup.
  - by rewrite bool_decide_eq_true_2.
  - by rewrite bool_decide_eq_false_2.
Qed.

Lemma removeRecordsSync_removes_witness :
  (removeRecordsSync jupiterCache [moon1; jupiterId]).2 = [jupiter]
  ∧ getRecordSync (removeRecordsSync jupiterCache [moon1; jupiterId]).1 jupiterId
    = None.
Proof.
  assert (NoDup [moon1; jupiterId]) as Hnd
    by (apply (bool_decide_unpack _); vm_compute; exact I).
  destruct (removeRecordsSync_removes jupiterCache [moon1; jupiterId] Hnd)
    as (Hrecords & Hgone & _).
  split; [by rewrite Hrecords|].
  apply Hgone. apply elem_of_cons. right. apply elem_of_cons. by left.
Defined.

(** X3. [addRecord] of a record that the cache does not hold, followed by
    [removeRecord] of its identity, gives the record back and leaves
    every lookup as it was before the two operations; [removeRecord] of
    an identity without a record changes nothing and returns
    [undefined]. *)
Theorem addRecord_removeRecord_round_trip
    (cache : SyncRecordCache) (record : OrbitRecord) :
  getRecordSync cache (identityOf record) = None →
  removeRecord cache (identityOf record) = Ok (cache, None)
  ∧ ∃ cache1 cache2,
      addRecord cache record = Ok (cache1, Some record)
      ∧ getRecordSync cache1 (identityOf record) = Some record
      ∧ removeRecord cache1 (identityOf record) = Ok (cache2, Some record)
      ∧ sameRecords cache2 cache.
Proof.
  intros Hnone. split.
  { unfold removeRecord, removeRecordSync. by rewrite Hnone. }
  set (cache1 := keyMapPush (setRecordSync cache record) record).
  exists cache1, (removeRecordSync cache1 (identityOf record)).1.
  split; [reflexivity|].
  assert (getRecordSync cache1 (identityOf record) = Some record) as Hget.
  { subst cache1. by rewrite getRecordSync_keyMapPush, getRecordSync_set_eq. }
  split; [done|]. split.
  { unfold removeRecord.
    pose proof (removeRecordSync_result cache1 (identityOf record)) as Hres.
    destruct (removeRecordSync cache1 (identityOf record)) as [c2 removed];
      simpl in *.
    by rewrite Hres, Hget. }
  intros j. rewrite getRecordSync_remove. subst cache1.
  case_decide as Hj; [by subst|].
  by rewrite getRecordSync_keyMapPush, getRecordSync_set_ne.
Qed.

Lemma addRecord_removeRecord_witness :
  getRecordSync schemaCache (identityOf jupiter) = None
  ∧ ∃ cache1 cache2,
      addRecord schemaCache jupiter = Ok (cache1, Some jupiter)
      ∧ removeRecord cache1 jupiterId = Ok (cache2, Some jupiter)
      ∧ getRecordSync cache2 jupiterId = None.
Proof.
  split; [reflexivity|].
  destruct (addRecord_removeRecord_round_trip schemaCache jupiter eq_refl)
    as (_ & c1 & c2 & Hadd & _ & Hremove & Hsame).
  exists c1, c2. split; [exact Hadd|]. split; [exact Hremove|].
  by rewrite (Hsame jupiterId).
Defined.

(** *** Inverse relationships *)

Lemma lookupInverse_store_eq inverse i rels :
  lookupInverse (storeInverse inverse i rels) i = Some rels.
Proof.
  unfold lookupInverse, storeInverse.
  rewrite lookup_insert_eq; simpl. by rewrite lookup_insert_eq.
Qed.

Lemma lookupInverse_store_ne inverse i j rels :
  j ≠ i → lookupInverse (storeInverse inverse i rels) j = lookupInverse inverse j.
Proof.
  intros Hne. unfold lookupInverse, storeInverse.
  destruct (decide (identity_type i = identity_type j)) as [Ht|Ht].
  - rewrite Ht, lookup_insert_eq; simpl.
    assert (identity_id i ≠ identity_id j) as Hid.
    { intros Hid. apply Hne. destruct i, j; simpl in *. congruence. }
    rewrite lookup_insert_ne by done.
    by destruct (inverse !! identity_type j).
  - by rewrite lookup_insert_ne.
Qed.

(** X4. After [addInverseRelationshipsSync], the inverse relationships
    of a record are the ones it had, followed by the added ones that
    point at it, in the order they were added; the relationships of
    other records do not change. *)
Theorem addInverseRelationshipsSync_get
    (inverse : InverseRelationships)
    (relationships : list RecordRelationshipIdentity) (i : RecordIdentity) :
  getInverseRelationshipsSync
    (addInverseRelationshipsSync inverse relationships) i
  = getInverseRelationshipsSync inverse i
    ++ List.filter (pointsAt i) relationships.
Proof.
  unfold addInverseRelationshipsSync. revert inverse.
  induction relationships as [|r rs IH]; intros inverse; simpl.
  { by rewrite app_nil_r. }
  rewrite IH. unfold getInverseRelationshipsSync.
  destruct (pointsAt i r) eqn:Hr; unfold pointsAt in Hr.
  - apply bool_decide_eq_true in Hr as <-.
    rewrite lookupInverse_store_eq. simpl.
    rewrite <- app_assoc. simpl.
    by destruct (lookupInverse inverse (rri_relatedRecord r)).
  - apply bool_decide_eq_false in Hr.
    rewrite lookupInverse_store_ne; [done|]. by intros ->.
Qed.

Lemma filter_filter_and {A : Type} (f g : A → bool) (l : list A) :
  List.filter g (List.filter f l) = List.filter (fun x => f x && g x) l.
Proof.
  induction l as [|x l IH]; simpl; [done|].
  destruct (f x); simpl; [|done]. destruct (g x); by rewrite IH.
Qed.

Lemma filter_ext_bool {A : Type} (f g : A → bool) (l : list A) :
  (∀ x, f x = g x) → List.filter f l = List.filter g l.
Proof.
  intros Hext. induction l as [|x l IH]; simpl; [done|].
  by rewrite Hext, IH.
Qed.

(** X5. After [removeInverseRelationshipsSync], the inverse
    relationships of a record are the ones it had, without those whose
    record and relationship name are the ones of a removed relationship
    that points at it; the related record of the entry itself is not
    compared. A record without stored inverse relationships gets
    none. *)
Theorem removeInverseRelationshipsSync_get
    (inverse : InverseRelationships)
    (relationships : list RecordRelationshipIdentity) (i : RecordIdentity) :
  getInverseRelationshipsSync
    (removeInverseRelationshipsSync inverse relationships) i
  = List.filter (fun entry => negb (removedBy i relationships entry))
      (getInverseRelationshipsSync inverse i).
Proof.
  unfold removeInverseRelationshipsSync. revert inverse.
  induction relationships as [|r rs IH]; intros inverse; simpl.
  { induction (getInverseRelationshipsSync inverse i) as [|x l IHl];
      simpl; [done|]. by rewrite <- IHl. }
  rewrite IH.
  assert (getInverseRelationshipsSync
            match lookupInverse inverse (rri_relatedRecord r) with
            | Some rels =>
                storeInverse inverse (rri_relatedRecord r)
                  (List.filter (fun rel => negb (sameEdge rel r)) rels)
            | None => inverse
            end i
          = List.filter (fun entry => negb (pointsAt i r && sameEdge entry r))
              (getInverseRelationshipsSync inverse i)) as ->.
  { unfold getInverseRelationshipsSync, pointsAt.
    case_bool_decide as Hr; simpl.
    - rewrite <- Hr.
      destruct (lookupInverse inverse (rri_relatedRecord r)) as [rels|] eqn:Hl.
      + by rewrite lookupInverse_store_eq.
      + by rewrite Hl.
    - assert (∀ l : list RecordRelationshipIdentity,
                List.filter (fun _ => true) l = l) as Hall.
      { induction l as [|x l IHl]; simpl; [done|]. by rewrite IHl. }
      rewrite Hall.
      destruct (lookupInverse inverse (rri_relatedRecord r)); [|done].
      by rewrite lookupInverse_store_ne. }
  rewrite filter_filter_and. apply filter_ext_bool.
  intros entry. unfold removedBy; simpl.
  by rewrite negb_orb.
Qed.

(** *** The cache stays well keyed *)

Lemma setRecordSync_wellKeyed cache record :
  wellKeyed cache → wellKeyed (setRecordSync cache record).
Proof.
  intros Hwk i r. destruct (decide (i = identityOf record)) as [->|Hne].
  - rewrite getRecordSync_set_eq. by intros [= <-].
  - rewrite getRecordSync_set_ne by done. apply Hwk.
Qed.

Lemma keyMapPush_wellKeyed cache record :
  wellKeyed cache → wellKeyed (keyMapPush cache record).
Proof. intros Hwk i r. rewrite getRecordSync_keyMapPush. apply Hwk. Qed.

Lemma removeRecordSync_wellKeyed cache i :
  wellKeyed cache → wellKeyed (removeRecordSync cache i).1.
Proof.
  intros Hwk j r. rewrite getRecordSync_remove. case_decide; [done|]. apply Hwk.
Qed.

(** X6. Every transform operator keeps the cache well keyed: when each
    record is stored under its own type and id before an operation, the
    same holds in the cache the operation returns. The empty cache of
    the schema is well keyed. *)
Theorem applyOperator_wellKeyed
    (cache cache' : SyncRecordCache) (operation : RecordOperation)
    (result : RecordOperationResult) :
  wellKeyed cache →
  applyOperator cache operation = Ok (cache', result) →
  wellKeyed cache'.
Proof.
  intros Hwk. destruct operation; simpl.
  - intros [= <- _]. by apply keyMapPush_wellKeyed, setRecordSync_wellKeyed.
  - intros [= <- _]. by apply keyMapPush_wellKeyed, setRecordSync_wellKeyed.
  - unfold removeRecord.
    pose proof (removeRecordSync_wellKeyed cache record Hwk) as Hwk'.
    destruct (removeRecordSync cache record) as [c r]. by intros [= <- _].
  - intros [= <- _]. by apply keyMapPush_wellKeyed, setRecordSync_wellKeyed.
  - intros [= <- _]. by apply setRecordSync_wellKeyed.
  - unfold addToRelatedRecords.
    destruct (orEmptyArray _) as [?|rs]; [done|].
    destruct (recordsInclude rs relatedRecord); simpl; intros [= <- _];
      [done|by apply setRecordSync_wellKeyed].
  - unfold removeFromRelatedRecords.
    destruct (getRecordSync cache record) as [cur|]; [|by intros [= <- _]].
    destruct (deepGet_data _ _) as [[[?|]|rs]|]; intros [= <- _];
      try done. by apply setRecordSync_wellKeyed.
  - intros [= <- _]. by apply setRecordSync_wellKeyed.
  - unfold replaceRelatedRecord.
    destruct (deepGet_data _ _) as [[[?|]|rs]|], relatedRecord;
      intros [= <- _]; try done; by apply setRecordSync_wellKeyed.
Qed.

Lemma schemaCache_wellKeyed : wellKeyed schemaCache.
Proof.
  intros i r. unfold getRecordSync, schemaCache; simpl.
  destruct (_ !! identity_type i) as [byId|] eqn:Htype; [|done]. simpl.
  repeat (rewrite lookup_insert in Htype; case_decide;
          [injection Htype as <-; by rewrite lookup_empty|]).
  rewrite lookup_singleton in Htype. case_decide; [|done].
  injection Htype as <-. by rewrite lookup_empty.
Qed.

Lemma applyOperator_wellKeyed_witness :
  wellKeyed schemaCache
  ∧ wellKeyed (keyMapPush (setRecordSync schemaCache jupiter) jupiter).
Proof.
  split; [exact schemaCache_wellKeyed|].
  apply (applyOperator_wellKeyed schemaCache _ (AddRecordOperation jupiter)
           (Some jupiter) schemaCache_wellKeyed eq_refl).
Defined.

(** *** Relationship operators on a record that exists *)

Lemma deepSet_data_twice record relationship v1 v2 :
  deepSet_data (deepSet_data record relationship v1) relationship v2
  = deepSet_data record relationship v2.
Proof.
  unfold deepSet_data; simpl. rewrite lookup_insert_eq; simpl.
  by rewrite insert_insert_eq.
Qed.

Lemma deepSet_data_same record relationship v :
  deepGet_data record relationship = Some v →
  deepSet_data record relationship v = record.
Proof.
  unfold deepGet_data, deepSet_data. destruct record as [t i ks ats rels].
  simpl. destruct rels as [rels|]; [|done]. simpl.
  destruct (rels !! relationship) as [[d m]|] eqn:Hrel; [|done]. simpl.
  intros ->. by rewrite insert_id.
Qed.

Lemma setRecordSync_same cache record :
  getRecordSync cache (identityOf record) = Some record →
  setRecordSync cache record = cache.
Proof.
  unfold getRecordSync, setRecordSync. destruct cache as [records km].
  simpl. destruct (records !! rec_type record) as [byId|] eqn:Htype; [|done].
  simpl. intros Hid. by rewrite (insert_id byId), insert_id.
Qed.

Lemma setRecordSync_over cache r1 r2 :
  identityOf r1 = identityOf r2 →
  setRecordSync (setRecordSync cache r1) r2 = setRecordSync cache r2.
Proof.
  intros [= Ht Hi]. unfold setRecordSync; simpl. f_equal.
  rewrite Ht, lookup_insert_eq; simpl. rewrite Hi.
  by rewrite !insert_insert_eq.
Qed.

Lemma filter_not_equal_snoc rs x :
  x ∉ rs →
  List.filter (fun r => negb (equalRecordIdentities r x)) (rs ++ [x]) = rs.
Proof.
  intros Hnotin. rewrite List.filter_app. simpl.
  assert (equalRecordIdentities x x = true) as ->
    by by apply equalRecordIdentities_spec.
  simpl. rewrite app_nil_r.
  induction rs as [|r rs IH]; simpl; [done|].
  apply not_elem_of_cons in Hnotin as [Hne Hnotin].
  destruct (equalRecordIdentities r x) eqn:E.
  - apply equalRecordIdentities_spec in E. congruence.
  - simpl. by rewrite IH.
Qed.

(** X7. [removeFromRelatedRecords] undoes [addToRelatedRecords]: for a
    record stored under its identity whose relationship holds an array
    without the related record, adding the related record and removing
    it again gives back the cache exactly as it was, and the second
    operator returns the original record. *)
Theorem add_then_remove_related_restores
    (cache : SyncRecordCache) (i : RecordIdentity) (current : OrbitRecord)
    (relationship : string) (relatedRecords : list RecordIdentity)
    (relatedRecord : RecordIdentity) :
  getRecordSync cache i = Some current →
  identityOf current = i →
  deepGet_data current relationship = Some (HasMany relatedRecords) →
  relatedRecord ∉ relatedRecords →
  ∃ cache1 r1,
    addToRelatedRecords cache i relationship relatedRecord
    = Ok (cache1, Some r1)
    ∧ deepGet_data r1 relationship
      = Some (HasMany (relatedRecords ++ [relatedRecord]))
    ∧ removeFromRelatedRecords cache1 i relationship relatedRecord
      = Ok (cache, Some current).
Proof.
  intros Hget Hid Hdata Hnotin.
  assert (recordsInclude relatedRecords relatedRecord = false) as Hin.
  { apply not_true_is_false. by rewrite recordsInclude_spec. }
  eexists _, _. split.
  { unfold addToRelatedRecords, cloneOrShell. rewrite Hget. unfold clone.
    rewrite Hdata. simpl. rewrite Hin. simpl. reflexivity. }
  split; [apply deepGet_deepSet_data|].
  unfold removeFromRelatedRecords.
  set (r1 := deepSet_data current relationship _).
  assert (getRecordSync (setRecordSync cache r1) i = Some r1) as ->.
  { rewrite <- Hid. apply (getRecordSync_set_eq cache r1). }
  unfold clone. subst r1. rewrite deepGet_deepSet_data.
  rewrite filter_not_equal_snoc by done.
  rewrite deepSet_data_twice, (deepSet_data_same _ _ _ Hdata).
  rewrite setRecordSync_over by done.
  rewrite setRecordSync_same; [done|]. by rewrite Hid.
Qed.

Lemma add_then_remove_related_witness :
  ∃ cache1 r1,
    addToRelatedRecords (setRecordSync schemaCache jupiterWithMoon)
      jupiterId "moons" moon2 = Ok (cache1, Some r1)
    ∧ removeFromRelatedRecords cache1 jupiterId "moons" moon2
      = Ok (setRecordSync schemaCache jupiterWithMoon, Some jupiterWithMoon).
Proof.
  destruct (add_then_remove_related_restores
              (setRecordSync schemaCache jupiterWithMoon) jupiterId
              jupiterWithMoon "moons" [moon1] moon2 eq_refl eq_refl eq_refl)
    as (c1 & r1 & Hadd & _ & Hremove).
  { apply (bool_decide_unpack _). vm_compute. exact I. }
  by exists c1, r1.
Defined.

(** X8. [removeFromRelatedRecords] on a record whose relationship holds
    an array stores the record with every occurrence of the related
    record filtered out and the other identities in their order, and it
    is idempotent: a second application returns the same cache and the
    same record. *)
Theorem removeFromRelatedRecords_filters
    (cache : SyncRecordCache) (i : RecordIdentity) (current : OrbitRecord)
    (relationship : string) (relatedRecords : list RecordIdentity)
    (relatedRecord : RecordIdentity) :
  getRecordSync cache i = Some current →
  deepGet_data current relationship = Some (HasMany relatedRecords) →
  ∃ cache1 r1,
    removeFromRelatedRecords cache i relationship relatedRecord
    = Ok (cache1, Some r1)
    ∧ deepGet_data r1 relationship
      = Some (HasMany (List.filter (fun r => bool_decide (r ≠ relatedRecord))
                         relatedRecords))
    ∧ getRecordSync cache1 (identityOf current) = Some r1
    ∧ removeFromRelatedRecords cache1 i relationship relatedRecord
      = Ok (cache1, Some r1).
Proof.
  intros Hget Hdata.
  set (keep := fun r => negb (equalRecordIdentities r relatedRecord)).
  set (r1 := deepSet_data current relationship
               (HasMany (List.filter keep relatedRecords))).
  assert (removeFromRelatedRecords cache i relationship relatedRecord
          = Ok (setRecordSync cache r1, Some r1)) as Hrun.
  { unfold removeFromRelatedRecords. rewrite Hget. unfold clone.
    by rewrite Hdata. }
  exists (setRecordSync cache r1), r1. split; [exact Hrun|]. split.
  { subst r1. rewrite deepGet_deepSet_data. do 2 f_equal.
    apply filter_ext_bool. intros r. subst keep. simpl.
    destruct (equalRecordIdentities r relatedRecord) eqn:E; simpl.
    - apply equalRecordIdentities_spec in E.
      by rewrite bool_decide_eq_false_2 by (by intros ?).
    - rewrite bool_decide_eq_true_2; [done|].
      intros Heq. apply equalRecordIdentities_spec in Heq. congruence. }
  split; [apply (getRecordSync_set_eq cache r1)|].
  assert (List.filter keep (List.filter keep relatedRecords)
          = List.filter keep relatedRecords) as Hidem.
  { rewrite filter_filter_and. apply filter_ext_bool.
    intros r. by destruct (keep r). }
  unfold removeFromRelatedRecords.
  destruct (decide (identityOf current = i)) as [Hid|Hid].
  - assert (getRecordSync (setRecordSync cache r1) i = Some r1) as ->.
    { rewrite <- Hid. apply (getRecordSync_set_eq cache r1). }
    unfold clone. subst r1. rewrite deepGet_deepSet_data.
    fold keep. rewrite Hidem, deepSet_data_twice.
    by rewrite setRecordSync_twice.
  - rewrite getRecordSync_set_ne by (by intros ->).
    rewrite Hget. unfold clone. rewrite Hdata. fold keep. fold r1.
    by rewrite setRecordSync_twice.
Qed.

Lemma removeFromRelatedRecords_filters_witness :
  ∃ cache1 r1,
    removeFromRelatedRecords (setRecordSync schemaCache jupiterWithMoon)
      jupiterId "moons" moon1 = Ok (cache1, Some r1)
    ∧ deepGet_data r1 "moons" = Some (HasMany [])
    ∧ removeFromRelatedRecords cache1 jupiterId "moons" moon1
      = Ok (cache1, Some r1).
Proof.
  destruct (removeFromRelatedRecords_filters
              (setRecordSync schemaCache jupiterWithMoon) jupiterId
              jupiterWithMoon "moons" [moon1] moon1 eq_refl eq_refl)
    as (c1 & r1 & Hrun & Hdata & _ & Hagain).
  exists c1, r1. split; [exact Hrun|]. split; [exact Hdata|exact Hagain].
Defined.

(** *** replaceAttribute: the last write wins *)

Lemma cloneOrShell_identityOf cache i :
  wellKeyed cache → identityOf (cloneOrShell cache i) = i.
Proof.
  intros Hwk. unfold cloneOrShell.
  destruct (getRecordSync cache i) as [r|] eqn:Hget;
    [by apply Hwk|apply identityOf_shell].
Qed.

(** X9. On a well-keyed cache, two [replaceAttribute] operations on one
    record compose as writes to a dictionary: for the same attribute the
    first value is overwritten, so the pair gives the cache and the
    record of the second operation alone; for different attributes the
    order of the two does not matter. *)
Theorem replaceAttribute_composes
    (cache : SyncRecordCache) (i : RecordIdentity)
    (a b : string) (va va' vb : JSValue) :
  wellKeyed cache →
  ∃ ca cb ra rb,
    replaceAttribute cache i a va = Ok (ca, Some ra)
    ∧ replaceAttribute cache i b vb = Ok (cb, Some rb)
    ∧ replaceAttribute ca i a va' = replaceAttribute cache i a va'
    ∧ (a ≠ b → replaceAttribute ca i b vb = replaceAttribute cb i a va).
Proof.
  intros Hwk. pose proof (cloneOrShell_identityOf cache i Hwk) as Hid.
  eexists _, _, _, _. split; [reflexivity|]. split; [reflexivity|].
  unfold replaceAttribute. simpl.
  set (base := cloneOrShell cache i) in *.
  assert (∀ attribute value,
            cloneOrShell
              (setRecordSync cache
                 (mkRecord (rec_type base) (rec_id base) (keys base)
                    (Some (<[attribute := value]> (default ∅ (attributes base))))
                    (relationships base))) i
            = mkRecord (rec_type base) (rec_id base) (keys base)
                (Some (<[attribute := value]> (default ∅ (attributes base))))
                (relationships base)) as Hclone.
  { intros attribute value. by apply cloneOrShell_set_eq. }
  split.
  - rewrite Hclone. simpl. rewrite insert_insert_eq.
    by rewrite setRecordSync_over.
  - intros Hne. rewrite !Hclone. simpl.
    rewrite (insert_insert_ne _ a b) by done.
    by rewrite !setRecordSync_over.
Qed.

Lemma replaceAttribute_composes_witness :
  wellKeyed jupiterCache
  ∧ ∃ ca,
      replaceAttribute jupiterCache jupiterId "name" (JStr "A")
      = Ok (ca, Some (mkRecord "planet" "jupiter" None
                        (Some {[ "name" := JStr "A";
                                 "classification" := JStr "gas giant" ]})
                        None))
      ∧ replaceAttribute ca jupiterId "name" (JStr "B")
        = replaceAttribute jupiterCache jupiterId "name" (JStr "B").
Proof.
  assert (wellKeyed jupiterCache) as Hwk
    by apply setRecordSync_wellKeyed, schemaCache_wellKeyed.
  split; [exact Hwk|].
  destruct (replaceAttribute_composes jupiterCache jupiterId "name" "name"
              (JStr "A") (JStr "B") (JStr "A") Hwk)
    as (ca & _ & ra & _ & Hrun & _ & Hover & _).
  exists ca. split; [|exact Hover].
  rewrite Hrun. do 3 f_equal.
  vm_compute in Hrun. injection Hrun as _ <-. vm_compute. reflexivity.
Defined.

(** *** replaceRelatedRecords and replaceRelatedRecord *)

Lemma deepGet_deepSet_data_ne record relationship other v :
  other ≠ relationship →
  deepGet_data (deepSet_data record relationship v) other
  = deepGet_data record other.
Proof.
  intros Hne. unfold deepGet_data, deepSet_data. simpl.
  rewrite lookup_insert_ne by done.
  by destruct (relationships record) as [rels|].
Qed.

(** X19. [replaceRelatedRecords] on a well-keyed cache overwrites one
    relationship of one record: afterwards the cache holds the returned
    record under the operation's identity, the relationship's data is
    the given array, the record's other relationships and the records
    under other identities are as before, and a second
    [replaceRelatedRecords] on the same relationship gives what it would
    have given alone. *)
Theorem replaceRelatedRecords_overwrites
    (cache : SyncRecordCache) (i : RecordIdentity) (relationship : string)
    (xs ys : list RecordIdentity) :
  wellKeyed cache →
  ∃ cache1 r1,
    replaceRelatedRecords cache i relationship xs = Ok (cache1, Some r1)
    ∧ getRecordSync cache1 i = Some r1
    ∧ deepGet_data r1 relationship = Some (HasMany xs)
    ∧ (∀ other, other ≠ relationship →
                deepGet_data r1 other
                = deepGet_data (cloneOrShell cache i) other)
    ∧ (∀ j, j ≠ i → getRecordSync cache1 j = getRecordSync cache j)
    ∧ replaceRelatedRecords cache1 i relationship ys
      = replaceRelatedRecords cache i relationship ys.
Proof.
  intros Hwk. pose proof (cloneOrShell_identityOf cache i Hwk) as Hid.
  eexists _, _. split; [reflexivity|].
  set (base := cloneOrShell cache i) in *.
  set (r1 := deepSet_data base relationship (HasMany xs)).
  assert (identityOf r1 = i) as Hid1 by exact Hid.
  split; [rewrite <- Hid1; apply getRecordSync_set_eq|].
  split; [apply deepGet_deepSet_data|].
  split; [intros other Hne; by apply deepGet_deepSet_data_ne|].
  split.
  - intros j Hne. apply getRecordSync_set_ne. by rewrite Hid1.
  - unfold replaceRelatedRecords. fold base. fold r1.
    rewrite (cloneOrShell_set_eq cache r1 i Hid1).
    unfold r1. rewrite deepSet_data_twice.
    by rewrite setRecordSync_over.
Qed.

Lemma replaceRelatedRecords_overwrites_witness :
  wellKeyed jupiterCache
  ∧ ∃ cache1 r1,
      replaceRelatedRecords jupiterCache jupiterId "moons" [moon1; moon2]
      = Ok (cache1, Some r1)
      ∧ deepGet_data r1 "moons" = Some (HasMany [moon1; moon2])
      ∧ replaceRelatedRecords cache1 jupiterId "moons" [moon2]
        = replaceRelatedRecords jupiterCache jupiterId "moons" [moon2].
Proof.
  assert (wellKeyed jupiterCache) as Hwk
    by apply setRecordSync_wellKeyed, schemaCache_wellKeyed.
  split; [exact Hwk|].
  destruct (replaceRelatedRecords_overwrites jupiterCache jupiterId "moons"
              [moon1; moon2] [moon2] Hwk)
    as (cache1 & r1 & Hrun & _ & Hdata & _ & _ & Hover).
  exists cache1, r1. split; [exact Hrun|]. split; [exact Hdata|exact Hover].
Defined.

(** X20. [replaceRelatedRecord] on a well-keyed cache: afterwards the
    cache holds the returned record under the operation's identity, the
    relationship's data is the given identity or [null], the records
    under other identities are as before, and the same operation again
    changes nothing. When the relationship is [null] already and [null]
    is given, the cache is not written at all. *)
Theorem replaceRelatedRecord_settles
    (cache : SyncRecordCache) (i : RecordIdentity) (relationship : string)
    (relatedRecord : option RecordIdentity) :
  wellKeyed cache →
  ∃ cache1 r1,
    replaceRelatedRecord cache i relationship relatedRecord
    = Ok (cache1, Some r1)
    ∧ getRecordSync cache1 i = Some r1
    ∧ deepGet_data r1 relationship = Some (HasOne relatedRecord)
    ∧ (∀ j, j ≠ i → getRecordSync cache1 j = getRecordSync cache j)
    ∧ replaceRelatedRecord cache1 i relationship relatedRecord
      = Ok (cache1, Some r1)
    ∧ (deepGet_data (cloneOrShell cache i) relationship = Some (HasOne None) →
       relatedRecord = None → cache1 = cache).
Proof.
  intros Hwk. pose proof (cloneOrShell_identityOf cache i Hwk) as Hid.
  set (base := cloneOrShell cache i) in *.
  assert ((deepGet_data base relationship = Some (HasOne None)
           ∧ relatedRecord = None)
          ∨ ¬ (deepGet_data base relationship = Some (HasOne None)
               ∧ relatedRecord = None)) as [[Hnull ->]|Hwrite].
  { destruct (deepGet_data base relationship) as [[[x|]|xs]|],
      relatedRecord as [y|];
      first [by left | right; intros [? ?]; congruence]. }
  - exists cache, base.
    assert (replaceRelatedRecord cache i relationship None
            = Ok (cache, Some base)) as Hrun.
    { unfold replaceRelatedRecord. fold base. by rewrite Hnull. }
    assert (getRecordSync cache i = Some base) as Hget.
    { subst base. unfold cloneOrShell in *.
      destruct (getRecordSync cache i) as [r|]; [done|].
      by destruct i. }
    by repeat split.
  - set (r1 := deepSet_data base relationship (HasOne relatedRecord)).
    assert (identityOf r1 = i) as Hid1 by exact Hid.
    exists (setRecordSync cache r1), r1.
    assert (replaceRelatedRecord cache i relationship relatedRecord
            = Ok (setRecordSync cache r1, Some r1)) as Hrun.
    { unfold replaceRelatedRecord. fold base.
      destruct (deepGet_data base relationship) as [[[x|]|xs]|] eqn:Hdata,
        relatedRecord as [y|]; try done.
      by destruct Hwrite. }
    split; [exact Hrun|].
    split; [rewrite <- Hid1; apply getRecordSync_set_eq|].
    split; [apply deepGet_deepSet_data|].
    split; [intros j Hne; apply getRecordSync_set_ne; by rewrite Hid1|].
    split; [|intros Hnull ->; by destruct Hwrite].
    unfold replaceRelatedRecord.
    rewrite (cloneOrShell_set_eq cache r1 i Hid1).
    assert (deepGet_data r1 relationship = Some (HasOne relatedRecord))
      as Hdata1 by apply deepGet_deepSet_data.
    rewrite Hdata1. destruct relatedRecord as [y|]; [|done].
    rewrite (deepSet_data_same r1 relationship _ Hdata1).
    by rewrite setRecordSync_twice.
Qed.

Lemma replaceRelatedRecord_settles_witness :
  wellKeyed jupiterCache
  ∧ ∃ cache1 r1,
      replaceRelatedRecord jupiterCache jupiterId "star" None
      = Ok (cache1, Some r1)
      ∧ deepGet_data r1 "star" = Some (HasOne None)
      ∧ replaceRelatedRecord cache1 jupiterId "star" None
        = Ok (cache1, Some r1).
Proof.
  assert (wellKeyed jupiterCache) as Hwk
    by apply setRecordSync_wellKeyed, schemaCache_wellKeyed.
  split; [exact Hwk|].
  destruct (replaceRelatedRecord_settles jupiterCache jupiterId "star" None
              Hwk)
    as (cache1 & r1 & Hrun & _ & Hdata & _ & Hagain & _).
  exists cache1, r1. split; [exact Hrun|]. split; [exact Hdata|exact Hagain].
Defined.

End Records.

(** ** The request flow of a source: transform log, events, update, pull *)

Module RequestFlow.

(** [RequestOptions]: an absent member is [false]. *)
Record RequestOptions := mkOptions {
  fullResponse : bool;
  includeSources : bool }.

Record Transform (O : Type) := mkTransform {
  transform_id : string;
  operations : list O;
  transform_options : option RequestOptions }.
Arguments mkTransform {O} _ _ _.
Arguments transform_id {O} _.
Arguments operations {O} _.
Arguments transform_options {O} _.

Record Query (QE : Type) := mkQuery {
  query_id : string;
  expressions : list QE;
  query_options : option RequestOptions }.
Arguments mkQuery {QE} _ _ _.
Arguments query_id {QE} _.
Arguments expressions {QE} _.
Arguments query_options {QE} _.

(** What [update] accepts: a transform or an array of operations (a
    builder function is applied by [buildTransform] and gives one of the
    two). *)
Inductive TransformOrOperations (O : Type) :=
| IsTransform (t : Transform O)
| IsOperations (ops : list O).
Arguments IsTransform {O} t.
Arguments IsOperations {O} ops.

Inductive QueryOrExpressions (QE : Type) :=
| IsQuery (q : Query QE)
| IsExpressions (exprs : list QE).
Arguments IsQuery {QE} q.
Arguments IsExpressions {QE} exprs.

(** [FullResponse]; [Named] is the response of another source, as a
    [beforeX] listener returns it under that source's name. *)
Record FullResponse (O Data Details Named : Type) := mkResponse {
  data : option Data;
  details : option Details;
  transforms : option (list (Transform O));
  sources : option (gmap string Named) }.
Arguments mkResponse {O Data Details Named} _ _ _ _.
Arguments data {O Data Details Named} _.
Arguments details {O Data Details Named} _.
Arguments transforms {O Data Details Named} _.
Arguments sources {O Data Details Named} _.

(** What the public promise resolves with: [response.data], an array of
    transforms, or the whole full response. *)
Inductive Resolved (O Data Details Named : Type) :=
| ResolvedData (d : option Data)
| ResolvedTransforms (ts : list (Transform O))
| ResolvedFull (r : FullResponse O Data Details Named).
Arguments ResolvedData {O Data Details Named} d.
Arguments ResolvedTransforms {O Data Details Named} ts.
Arguments ResolvedFull {O Data Details Named} r.

(** [options?.fullResponse] *)
Definition wantsFullResponse (options : option RequestOptions) : bool :=
  from_option fullResponse false options.

Section Flow.

(** Operations, query expressions, response members and hints; [St] is
    the state of the source that its protected handlers read and write,
    apart from the transform log; [W] is what the listeners work on:
    observers outside the source, with a state of their own. *)
Context {O QE Data Details Named Hints St W : Type}.

Abbreviation Transform := (Transform O).
Abbreviation Query := (Query QE).
Abbreviation FullResponse := (FullResponse O Data Details Named).
Abbreviation Resolved := (Resolved O Data Details Named).

Inductive Event :=
| EvBeforeUpdate (t : Transform)
| EvUpdate (t : Transform) (r : FullResponse)
| EvUpdateFail (t : Transform) (e : Exception)
| EvBeforePull (q : Query)
| EvPull (q : Query) (r : FullResponse)
| EvPullFail (q : Query) (e : Exception)
| EvBeforeSync (t : Transform)
| EvSync (t : Transform)
| EvSyncFail (t : Transform) (e : Exception)
| EvTransform (t : Transform)
| EvError (e : Exception).

(** The trace records when an event is emitted and when its listeners
    have all been awaited. *)
Inductive TraceItem :=
| Fired (ev : Event)
| Settled (ev : Event).

Record Source := mkSource {
  transformLog : list string;
  trace : list TraceItem;
  state : St;
  world : W }.

Definition withState (s : Source) (st : St) : Source :=
  mkSource (transformLog s) (trace s) st (world s).

Definition withWorld (s : Source) (w : W) : Source :=
  mkSource (transformLog s) (trace s) (state s) w.

Definition withLog (s : Source) (log : list string) : Source :=
  mkSource log (trace s) (state s) (world s).

Definition record (item : TraceItem) (s : Source) : Source :=
  mkSource (transformLog s) (trace s ++ [item]) (state s) (world s).

(** [transformLog.contains(id)] *)
Definition contains (log : list string) (id : string) : bool :=
  bool_decide (id ∈ log).

(** A listener gets the event's arguments with the event, and the hints
    object of the request, which it may change; it returns a named
    response or [undefined], or throws. *)
Definition ListenerResult : Type :=
  Outcome (option (string * Named)) * Hints * W.
Definition Listener : Type := Hints → W → ListenerResult.

(** The listeners registered on the source, in registration order; the
    hints object of a new request; the builders; the protected handlers,
    which read the log and work on the state. *)
Variable listeners : Event → list Listener.
Variable noHints : Hints.
Variable buildTransform :
  TransformOrOperations O → option RequestOptions → option string → Transform.
Variable buildQuery :
  QueryOrExpressions QE → option RequestOptions → option string → Query.
Variable _update :
  Transform → Hints → list string → St → Outcome FullResponse * St.
Variable _pull :
  Query → Hints → list string → St → Outcome FullResponse * St.

(** Modelled from the spec: [fulfillInSeries] of @orbit/core is not in the
    sources. Section 4.1: listeners run in registration order, each is
    awaited, their return values are collected, and a rejection
    propagates to the caller. *)
Fixpoint fulfillLoop
    (ls : list Listener) (results : list (option (string * Named)))
    (h : Hints) (w : W)
  : Outcome (list (option (string * Named))) * Hints * W :=
  match ls with
  | [] => (Ok results, h, w)
  | l :: rest =>
      match l h w with
      | (Ok v, h', w') => fulfillLoop rest (results ++ [v]) h' w'
      | (Throw e, h', w') => (Throw e, h', w')
      end
  end.

Definition fulfillInSeries (ev : Event) (h : Hints) (s : Source)
  : Outcome (list (option (string * Named))) * Hints * Source :=
  let s1 := record (Fired ev) s in
  match fulfillLoop (listeners ev) [] h (world s1) with
  | (Ok results, h', w') =>
      (Ok results, h', record (Settled ev) (withWorld s1 w'))
  | (Throw e, h', w') => (Throw e, h', withWorld s1 w')
  end.

(** Modelled from the spec: [settleInSeries] of @orbit/core is not in the
    sources. Sections 4.1 and 7: listeners run in registration order, each
    is awaited, and an error of a listener is caught and surfaced through
    an [error] event without aborting. *)
Fixpoint settleLoop (ls : list Listener) (s : Source) : Source :=
  match ls with
  | [] => s
  | l :: rest =>
      match l noHints (world s) with
      | (Ok _, _, w') => settleLoop rest (withWorld s w')
      | (Throw e, _, w') =>
          settleLoop rest (record (Fired (EvError e)) (withWorld s w'))
      end
  end.

Definition settleInSeries (ev : Event) (s : Source) : Source :=
  record (Settled ev) (settleLoop (listeners ev) (record (Fired ev) s)).

(** Modelled from the spec: [Source.transformed] is not in the sources.
    Section 4.5, step 7: it appends each transform to the log, skipping
    those the log already contains, and emits [transform] through
    settle-in-series. *)
Fixpoint transformed (ts : list Transform) (s : Source) : Source :=
  match ts with
  | [] => s
  | t :: rest =>
      if contains (transformLog s) (transform_id t) then transformed rest s
      else
        let s1 := withLog s (transformLog s ++ [transform_id t]) in
        transformed rest (settleInSeries (EvTransform t) s1)
  end.

(** Modelled from the spec: [mapNamedFullResponses] is not in the sources;
    the named responses of the listeners, by name. *)
Definition mapNamedFullResponses
    (responses : list (option (string * Named))) : gmap string Named :=
  foldl (fun m r => match r with
                    | Some (name, response) => <[name := response]> m
                    | None => m
                    end) ∅ responses.

(** [fullResponse.transforms?.length > 0] guards [this.transformed]. *)
Definition transformedIfAny (r : FullResponse) (s : Source) : Source :=
  match transforms r with
  | Some (t :: ts) => transformed (t :: ts) s
  | _ => s
  end.

Definition withSources (r : FullResponse) (m : gmap string Named)
  : FullResponse :=
  mkResponse (data r) (details r) (transforms r) (Some m).

(** [__update__], the performer of the task queue for [update]. The
    [catch] branch runs in the state the throw left. *)
Definition __update__ (t : Transform) (s : Source)
  : Outcome FullResponse * Source :=
  if contains (transformLog s) (transform_id t) then
    (Ok (mkResponse None None (Some []) None), s)
  else
    let options := default (mkOptions false false) (transform_options t) in
    match fulfillInSeries (EvBeforeUpdate t) noHints s with
    | (Throw e, _, s1) => (Throw e, settleInSeries (EvUpdateFail t e) s1)
    | (Ok otherResponses, hints, s1) =>
        match _update t hints (transformLog s1) (state s1) with
        | (Throw e, st2) =>
            (Throw e, settleInSeries (EvUpdateFail t e) (withState s1 st2))
        | (Ok fullResponse, st2) =>
            let fullResponse :=
              if includeSources options
              then withSources fullResponse
                     (mapNamedFullResponses otherResponses)
              else fullResponse in
            let s3 := transformedIfAny fullResponse (withState s1 st2) in
            (Ok fullResponse, settleInSeries (EvUpdate t fullResponse) s3)
        end
    end.

(** Modelled from the spec: [Source._enqueueRequest] and the task queue
    are not in the sources. Section 4.2: the queue resolves the kind
    against the performer map, invokes the performer and resolves the
    enqueuer's promise with its result; with no task ahead in the queue
    the performer runs on the state the request was made in. *)
Definition _enqueueRequest_update := __update__.

(** [update], after [await this.activated]. *)
Definition update
    (transformOrOperations : TransformOrOperations O)
    (options : option RequestOptions) (id : option string) (s : Source)
  : Outcome Resolved * Source :=
  let transform := buildTransform transformOrOperations options id in
  if contains (transformLog s) (transform_id transform) then
    let transforms : list Transform := [] in
    (Ok (if wantsFullResponse options
         then ResolvedFull (mkResponse None None (Some transforms) None)
         else ResolvedTransforms transforms), s)
  else
    match _enqueueRequest_update transform s with
    | (Ok response, s') =>
        (Ok (if wantsFullResponse options then ResolvedFull response
             else ResolvedData (data response)), s')
    | (Throw e, s') => (Throw e, s')
    end.

(** [__pull__], the performer of the task queue for [pull]. *)
Definition __pull__ (q : Query) (s : Source) : Outcome FullResponse * Source :=
  match fulfillInSeries (EvBeforePull q) noHints s with
  | (Throw e, _, s1) => (Throw e, settleInSeries (EvPullFail q e) s1)
  | (Ok otherResponses, hints, s1) =>
      match _pull q hints (transformLog s1) (state s1) with
      | (Throw e, st2) =>
          (Throw e, settleInSeries (EvPullFail q e) (withState s1 st2))
      | (Ok fullResponse, st2) =>
          let fullResponse :=
            match otherResponses with
            | [] => fullResponse
            | _ => withSources fullResponse
                     (mapNamedFullResponses otherResponses)
            end in
          let s3 := transformedIfAny fullResponse (withState s1 st2) in
          (Ok fullResponse, settleInSeries (EvPull q fullResponse) s3)
      end
  end.

Definition _enqueueRequest_pull := __pull__.

(** [pull], after [await this.activated]. *)
Definition pull
    (queryOrExpressions : QueryOrExpressions QE)
    (options : option RequestOptions) (id : option string) (s : Source)
  : Outcome Resolved * Source :=
  let query := buildQuery queryOrExpressions options id in
  match _enqueueRequest_pull query s with
  | (Ok response, s') =>
      (Ok (if wantsFullResponse options then ResolvedFull response
           else ResolvedTransforms (default [] (transforms response))), s')
  | (Throw e, s') => (Throw e, s')
  end.

(** The trace without the [error] events of failed listeners. *)
Definition isErrorItem (item : TraceItem) : bool :=
  match item with
  | Fired (EvError _) | Settled (EvError _) => true
  | _ => false
  end.

Definition observed (items : list TraceItem) : list TraceItem :=
  List.filter (fun item => negb (isErrorItem item)) items.

Definition isErrorEvent (ev : Event) : bool :=
  match ev with EvError _ => true | _ => false end.

(** The items one event leaves when no listener fails. *)
Definition firedAndSettled (ev : Event) : list TraceItem :=
  [Fired ev; Settled ev].


(** The request throws [e] and leaves the source in [sThrow]: a listener
    of the before-event throws, or they all return and the protected
    handler throws. *)
Definition throwsIn
    (before : Event)
    (handler : Hints → list string → St → Outcome FullResponse * St)
    (s : Source) (e : Exception) (sThrow : Source) : Prop :=
  (∃ h, fulfillInSeries before noHints s = (Throw e, h, sThrow))
  ∨ (∃ results h s1 st2,
       fulfillInSeries before noHints s = (Ok results, h, s1)
       ∧ handler h (transformLog s1) (state s1) = (Throw e, st2)
       ∧ sThrow = withState s1 st2).


(** *** The helpers leave the log alone and only extend the trace *)

Lemma observed_app l1 l2 : observed (l1 ++ l2) = observed l1 ++ observed l2.
Proof. unfold observed. apply List.filter_app. Qed.

Lemma settleLoop_spec ls s :
  transformLog (settleLoop ls s) = transformLog s
  ∧ state (settleLoop ls s) = state s
  ∧ ∃ new, trace (settleLoop ls s) = trace s ++ new ∧ observed new = [].
Proof.
  revert s. induction ls as [|l ls IH]; intros s; simpl.
  - do 2 (split; [done|]). exists []. by rewrite app_nil_r.
  - destruct (l noHints (world s)) as [[[v|e] h'] w'].
    + destruct (IH (withWorld s w')) as (Hlog & Hst & new & Htr & Hobs).
      do 2 (split; [done|]). by exists new.
    + destruct (IH (record (Fired (EvError e)) (withWorld s w')))
        as (Hlog & Hst & new & Htr & Hobs).
      do 2 (split; [done|]). exists (Fired (EvError e) :: new).
      split; [|done]. rewrite Htr. simpl. by rewrite <- app_assoc.
Qed.

Lemma settleInSeries_log ev s :
  transformLog (settleInSeries ev s) = transformLog s.
Proof.
  unfold settleInSeries; simpl.
  by destruct (settleLoop_spec (listeners ev) (record (Fired ev) s)) as [-> _].
Qed.

Lemma settleInSeries_state ev s : state (settleInSeries ev s) = state s.
Proof.
  unfold settleInSeries; simpl.
  by destruct (settleLoop_spec (listeners ev) (record (Fired ev) s))
    as (_ & -> & _).
Qed.

Lemma settleInSeries_trace ev s :
  isErrorEvent ev = false →
  ∃ new, trace (settleInSeries ev s) = trace s ++ new
         ∧ observed new = firedAndSettled ev
         ∧ last new = Some (Settled ev).
Proof.
  intros Hev. unfold settleInSeries; simpl.
  destruct (settleLoop_spec (listeners ev) (record (Fired ev) s))
    as (_ & _ & mid & -> & Hobs).
  exists (Fired ev :: mid ++ [Settled ev]). simpl. split.
  { by rewrite <- !app_assoc. }
  split.
  - change (Fired ev :: mid ++ [Settled ev])
      with ([Fired ev] ++ mid ++ [Settled ev]).
    rewrite !observed_app, Hobs. unfold observed; simpl.
    by destruct ev.
  - change (Fired ev :: mid ++ [Settled ev])
      with ((Fired ev :: mid) ++ [Settled ev]).
    apply last_snoc.
Qed.


Lemma fulfillInSeries_throw ev h s e h' s1 :
  fulfillInSeries ev h s = (Throw e, h', s1) →
  transformLog s1 = transformLog s ∧ trace s1 = trace s ++ [Fired ev].
Proof.
  unfold fulfillInSeries.
  destruct (fulfillLoop _ _ _ _) as [[[rs|e'] h2] st2]; intros [= <- <- <-];
    by simpl.
Qed.

Lemma contains_true log id : contains log id = true ↔ id ∈ log.
Proof. unfold contains. apply bool_decide_eq_true. Qed.

Lemma contains_false log id : contains log id = false ↔ id ∉ log.
Proof. unfold contains. apply bool_decide_eq_false. Qed.

(** The events of [transformed] on new transforms with distinct ids: one
    [transform] event for each, in order, each settled before the next is
    fired, and the log extended by their ids. *)
Lemma transformed_fresh ts s :
  NoDup (transform_id <$> ts) →
  Forall (fun t => transform_id t ∉ transformLog s) ts →
  transformLog (transformed ts s) = transformLog s ++ (transform_id <$> ts)
  ∧ state (transformed ts s) = state s
  ∧ ∃ new, trace (transformed ts s) = trace s ++ new
           ∧ observed new
             = concat ((fun t => firedAndSettled (EvTransform t)) <$> ts).
Proof.
  revert s. induction ts as [|t ts IH]; intros s Hnd Hfresh; simpl.
  - rewrite app_nil_r. do 2 (split; [done|]). exists [].
    by rewrite app_nil_r.
  - apply NoDup_cons in Hnd as [Hnotin Hnd].
    apply Forall_cons in Hfresh as [Ht Hfresh].
    apply contains_false in Ht. rewrite Ht.
    set (s1 := withLog s (transformLog s ++ [transform_id t])).
    destruct (settleInSeries_trace (EvTransform t) s1 eq_refl)
      as (n1 & Htr1 & Hobs1 & _).
    pose proof (settleInSeries_log (EvTransform t) s1) as Hlog1.
    assert (Forall (fun t' => transform_id t'
                              ∉ transformLog (settleInSeries (EvTransform t) s1))
              ts) as Hfresh'.
    { rewrite Hlog1. simpl. apply Forall_forall. intros t' Hin.
      rewrite Forall_forall in Hfresh. specialize (Hfresh t' Hin).
      intros [?|Heq%list_elem_of_singleton]%elem_of_app; [done|].
      apply Hnotin. rewrite <- Heq. by apply list_elem_of_fmap_2. }
    destruct (IH _ Hnd Hfresh') as (Hlog & Hst & n2 & Htr2 & Hobs2).
    split.
    { rewrite Hlog, Hlog1. simpl. by rewrite <- app_assoc. }
    split.
    { by rewrite Hst, settleInSeries_state. }
    exists (n1 ++ n2). split.
    { rewrite Htr2, Htr1. simpl. by rewrite app_assoc. }
    rewrite observed_app, Hobs1, Hobs2. done.
Qed.

Lemma transformedIfAny_eq r s :
  transformedIfAny r s = transformed (default [] (transforms r)) s.
Proof. unfold transformedIfAny. by destruct (transforms r) as [[|t ts]|]. Qed.




(** *** Where a request throws *)

Lemma update_performer_throws t s e sThrow :
  transform_id t ∉ transformLog s →
  throwsIn (EvBeforeUpdate t) (_update t) s e sThrow →
  __update__ t s = (Throw e, settleInSeries (EvUpdateFail t e) sThrow).
Proof.
  intros Hnew%contains_false Hthrow. unfold __update__. rewrite Hnew.
  destruct Hthrow as [[h ->]|(rs & h & s1 & st2 & -> & -> & ->)]; done.
Qed.

Lemma pull_performer_throws q s e sThrow :
  throwsIn (EvBeforePull q) (_pull q) s e sThrow →
  __pull__ q s = (Throw e, settleInSeries (EvPullFail q e) sThrow).
Proof.
  intros Hthrow. unfold __pull__.
  destruct Hthrow as [[h ->]|(rs & h & s1 & st2 & -> & -> & ->)]; done.
Qed.


(** C9. A request that throws emits its fail event and throws the same
    error. For [update] on a transform that is not logged and for [pull]:
    when a listener of the before-event throws [e], or the protected
    handler throws [e], the performer settles the fail event
    ([updateFail], [pullFail]) with the request and [e] in the state the
    throw left, and the public method rejects with [e] itself. Nothing
    else happens after the throw: the new items of the trace are the fail
    event, fired and settled. *)
Theorem failed_request_emits_fail_and_rethrows :
  (∀ transformOrOperations options id (s : Source) e sThrow,
     let t := buildTransform transformOrOperations options id in
     transform_id t ∉ transformLog s →
     throwsIn (EvBeforeUpdate t) (_update t) s e sThrow →
     ∃ s',
       update transformOrOperations options id s = (Throw e, s')
       ∧ s' = settleInSeries (EvUpdateFail t e) sThrow
       ∧ ∃ new, trace s' = trace sThrow ++ new
                ∧ observed new = firedAndSettled (EvUpdateFail t e)
                ∧ last new = Some (Settled (EvUpdateFail t e)))
  ∧ (∀ queryOrExpressions options id (s : Source) e sThrow,
       let q := buildQuery queryOrExpressions options id in
       throwsIn (EvBeforePull q) (_pull q) s e sThrow →
       ∃ s',
         pull queryOrExpressions options id s = (Throw e, s')
         ∧ s' = settleInSeries (EvPullFail q e) sThrow
         ∧ ∃ new, trace s' = trace sThrow ++ new
                  ∧ observed new = firedAndSettled (EvPullFail q e)
                  ∧ last new = Some (Settled (EvPullFail q e))).
Proof.
  split.
  - intros x options id s e sThrow t Hnew Hthrow.
    eexists. split; [|split; [reflexivity|]].
    + unfold update. fold t. apply contains_false in Hnew as Hc. rewrite Hc.
      unfold _enqueueRequest_update.
      by rewrite (update_performer_throws t s e sThrow Hnew Hthrow).
    + by apply settleInSeries_trace.
  - intros x options id s e sThrow q Hthrow.
    eexists. split; [|split; [reflexivity|]].
    + unfold pull. fold q. unfold _enqueueRequest_pull.
      by rewrite (pull_performer_throws q s e sThrow Hthrow).
    + by apply settleInSeries_trace.
Qed.

(** *** The log only grows, without repeated ids *)






End Flow.

End RequestFlow.

(** ** MemorySource: history of transforms, merge, rebase, rollback *)

Module Memory.
Import Records RequestFlow.

(** *** The transform log

    Modelled from the spec: the log class of @orbit/core is not in the
    sources. Section 3: an ordered sequence of transform ids; [head] is the
    last one appended, [after(id)] the ids strictly after [id], and
    [rollback(id, relative = 0)] discards the ids strictly after. Section 7:
    an id that is not logged gives [NotLoggedException], a relative
    position out of bounds [OutOfRangeException]. *)

Definition head (log : list string) : option string := last log.

Fixpoint indexOf (id : string) (log : list string) : option nat :=
  match log with
  | [] => None
  | x :: rest => if String.eqb x id then Some 0 else S <$> indexOf id rest
  end.

Definition positionAfter (log : list string) (id : string) (relative : Z)
  : Outcome nat :=
  match indexOf id log with
  | None => Throw (NotLoggedException id)
  | Some index =>
      let position := (Z.of_nat index + 1 + relative)%Z in
      if ((position <? 0) || (Z.of_nat (length log) <? position))%Z
      then Throw (OutOfRangeException position)
      else Ok (Z.to_nat position)
  end.

Definition after (log : list string) (id : string) (relative : Z)
  : Outcome (list string) :=
  match positionAfter log id relative with
  | Ok position => Ok (drop position log)
  | Throw e => Throw e
  end.

(** The retained ids, and the removed ones as the [rollback] event of the
    log hands them to its listeners. *)
Definition log_rollback (log : list string) (id : string) (relative : Z)
  : Outcome (list string * list string) :=
  match positionAfter log id relative with
  | Ok position => Ok (take position log, drop position log)
  | Throw e => Throw e
  end.

(** [Array.prototype.reverse] reverses the array in place and returns it:
    the first component is what the call returns, the second what the
    variable holds afterwards. They are the same array. *)
Definition js_reverse {A : Type} (array : list A) : list A * list A :=
  (reverse array, reverse array).

(** [array.forEach(f)] for an [f] that can throw: the loop stops at the
    first throw, with the state the throw left. *)
Fixpoint forEach {A S : Type}
    (f : A → S → Outcome unit * S) (array : list A) (s : S)
  : Outcome unit * S :=
  match array with
  | [] => (Ok (), s)
  | a :: rest =>
      match f a s with
      | (Ok _, s') => forEach f rest s'
      | (Throw e, s') => (Throw e, s')
      end
  end.

(** [RecordTransformResult]: one record or an array of results, each a
    record or [undefined]. *)
Inductive TransformResult :=
| ROne (r : OrbitRecord)
| RMany (rs : list (option OrbitRecord)).

(** [hints.data], as [_update] reads it: an identity or an array. *)
Inductive HintData :=
| HintOne (i : RecordIdentity)
| HintMany (ids : list (option RecordIdentity)).

Record ResponseHints (Details : Type) := mkHints {
  hint_data : option HintData;
  hint_details : option Details }.
Arguments mkHints {Details} _ _.
Arguments hint_data {Details} _.
Arguments hint_details {Details} _.

Record MemorySourceMergeOptions := mkMergeOptions {
  coalesce : option bool;
  sinceTransformId : option string;
  transformOptions : option RequestOptions }.

(** [if (options.sinceTransformId)]: the id is given and is not the empty
    string. *)
Definition givenId (id : option string) : option string :=
  match id with
  | Some s => if String.eqb s "" then None else Some s
  | None => None
  end.

Section MemorySource.

Context {Cache QE Details Named W : Type}.

Abbreviation RecordTransform := (Transform RecordOperation).
Abbreviation Response :=
  (FullResponse RecordOperation TransformResult Details Named).

(** [MemoryCache] is not in the sources. Its methods are parameters:
    [update(transform, {fullResponse: true})] gives the new cache with
    [data] and [details?.inverseOperations]; [patch(operations)] gives the
    new cache. They are total: the operations fit the schema and the
    cache does not throw. [cache_getRecordSync_array] is what
    [getRecordSync] does when it is handed an array; [cache_fork] builds
    the cache of a fork from the cache of its base. *)
Variable cache_update :
  RecordTransform → Cache →
  Cache * option TransformResult * option (list RecordOperation).
Variable cache_patch : list RecordOperation → Cache → Cache.
Variable cache_getRecordSync : Cache → RecordIdentity → option OrbitRecord.
Variable cache_getRecordSync_array :
  Cache → list (option RecordIdentity) → Outcome (option OrbitRecord).
Variable cache_fork : Cache → Cache.

(** [coalesceRecordOperations] and [buildTransform] are not in the
    sources either. *)
Variable coalesceRecordOperations :
  list RecordOperation → list RecordOperation.
Variable buildTransform :
  TransformOrOperations RecordOperation → option RequestOptions →
  option string → RecordTransform.

(** The private members of [MemorySource]. [_base] refers to another
    source, which lives on and changes after the fork: it is a reference
    into the store of sources. *)
Record MemoryState := mkMemory {
  _cache : Cache;
  _base : option nat;
  _forkPoint : option string;
  _transforms : gmap string RecordTransform;
  _transformInverses : gmap string (list RecordOperation) }.

Abbreviation MemorySource :=
  (@Source RecordOperation QE TransformResult Details Named MemoryState W).
Abbreviation MemoryListener :=
  (@Listener Named (ResponseHints Details) W).
Abbreviation MemoryEvent :=
  (@Event RecordOperation QE TransformResult Details Named).

Variable listeners : MemoryEvent → list MemoryListener.

Definition noHints : ResponseHints Details := mkHints None None.

Definition withCache (st : MemoryState) (cache : Cache) : MemoryState :=
  mkMemory cache (_base st) (_forkPoint st) (_transforms st)
    (_transformInverses st).

Definition withForkPoint (st : MemoryState) (forkPoint : option string)
  : MemoryState :=
  mkMemory (_cache st) (_base st) forkPoint (_transforms st)
    (_transformInverses st).

(** [transformsSince] and [allTransforms]: an id of the log without a
    stored transform gives [undefined] in the array. *)
Definition allTransforms (s : MemorySource) : list (option RecordTransform) :=
  (fun id => _transforms (state s) !! id) <$> transformLog s.

Definition transformsSince (s : MemorySource) (transformId : string)
  : Outcome (list (option RecordTransform)) :=
  match after (transformLog s) transformId 0 with
  | Ok ids => Ok ((fun id => _transforms (state s) !! id) <$> ids)
  | Throw e => Throw e
  end.

Definition _applyTransform (t : RecordTransform) (st : MemoryState)
  : option TransformResult * MemoryState :=
  let '(cache, data, inverseOperations) := cache_update t (_cache st) in
  (data,
   mkMemory cache (_base st) (_forkPoint st)
     (<[transform_id t := t]> (_transforms st))
     (<[transform_id t := default [] inverseOperations]>
        (_transformInverses st))).

Definition _clearTransformFromHistory (transformId : string) (st : MemoryState)
  : MemoryState :=
  mkMemory (_cache st) (_base st) (_forkPoint st)
    (delete transformId (_transforms st))
    (delete transformId (_transformInverses st)).

(** The body of the loops of [rebase] and [_logRolledback]: patch the
    cache with the recorded inverse operations, if any are recorded, and
    clear the transform from the history. *)
Definition undoTransform (transformId : string) (st : MemoryState)
  : MemoryState :=
  let st1 :=
    match _transformInverses st !! transformId with
    | Some inverseOperations =>
        withCache st (cache_patch inverseOperations (_cache st))
    | None => st
    end in
  _clearTransformFromHistory transformId st1.

Definition undefinedTransform : Exception :=
  TypeError "Cannot read properties of undefined".

(** The two callbacks of [rebase], on an element of an array of
    transforms. On [undefined], [transform.id] throws, and so does
    [cache.update], which has nothing to work on. *)
Definition undoLocal (transform : option RecordTransform) (st : MemoryState)
  : Outcome unit * MemoryState :=
  match transform with
  | Some t => (Ok (), undoTransform (transform_id t) st)
  | None => (Throw undefinedTransform, st)
  end.

Definition applyOne (transform : option RecordTransform) (st : MemoryState)
  : Outcome unit * MemoryState :=
  match transform with
  | Some t => (Ok (), (_applyTransform t st).2)
  | None => (Throw undefinedTransform, st)
  end.

Definition andThen {S : Type}
    (m : Outcome unit * S) (k : S → Outcome unit * S) : Outcome unit * S :=
  match m with
  | (Ok _, s) => k s
  | (Throw e, s) => (Throw e, s)
  end.

(** The transforms of the base that [rebase] replays: all of them when
    the base was empty at the fork point, those since the fork point
    otherwise. *)
Definition newBaseTransforms
    (base : MemorySource) (forkPoint : option string)
  : Outcome (list (option RecordTransform)) :=
  match forkPoint with
  | None => Ok (allTransforms base)
  | Some forkPoint => transformsSince base forkPoint
  end.

(** [rebase]. [sources] is the store that [_base] refers into. The array
    [localTransforms] is reversed in place for the first loop and is the
    array of the last loop. *)
Definition rebase (sources : nat → MemorySource) (self : MemorySource)
  : Outcome unit * MemorySource :=
  match _base (state self) with
  | None =>
      (Throw (Assertion "A `base` source must be defined for `rebase` to work"),
       self)
  | Some baseRef =>
      let base := sources baseRef in
      match newBaseTransforms base (_forkPoint (state self)) with
      | Throw e => (Throw e, self)
      | Ok baseTransforms =>
          if (0 <? length baseTransforms)%nat then
            let localTransforms := allTransforms self in
            let '(reversed, localTransforms) := js_reverse localTransforms in
            let '(result, st) :=
              andThen (forEach undoLocal reversed (state self)) (fun st =>
              andThen (forEach applyOne baseTransforms st) (fun st =>
              andThen (forEach applyOne localTransforms st) (fun st =>
              (Ok (), withForkPoint st (head (transformLog base)))))) in
            (result, withState self st)
          else (Ok (), self)
      end
  end.

(** [_logRolledback], the listener of the log's [rollback] event. *)
Definition _logRolledback (removed : list string) (st : MemoryState)
  : MemoryState :=
  let '(reversed, _) := js_reverse removed in
  foldl (fun st id => undoTransform id st) st reversed.

(** [rollback]: the log discards the ids after the position and emits
    [rollback] with them. *)
Definition rollback
    (transformId : string) (relativePosition : Z) (self : MemorySource)
  : Outcome unit * MemorySource :=
  match log_rollback (transformLog self) transformId relativePosition with
  | Throw e => (Throw e, self)
  | Ok (retained, removed) =>
      (Ok (), withState (withLog self retained)
                (_logRolledback removed (state self)))
  end.

(** [fork]: the constructor with [settings.base]; [thisRef] is the
    reference to this source, [w] the world of the new source's
    listeners. *)
Definition fork (thisRef : nat) (self : MemorySource) (w : W) : MemorySource :=
  mkSource [] []
    (mkMemory (cache_fork (_cache (state self))) (Some thisRef)
       (head (transformLog self)) ∅ ∅)
    w.

(** [_sync] *)
Definition _sync (t : RecordTransform) (s : MemorySource) : MemorySource :=
  if negb (contains (transformLog s) (transform_id t)) then
    transformed listeners noHints [t]
      (withState s (_applyTransform t (state s)).2)
  else s.



(** [_update] *)
Definition _update
    (t : RecordTransform) (hints : ResponseHints Details)
    (log : list string) (st : MemoryState)
  : Outcome Response * MemoryState :=
  let '(results, st1, transforms) :=
    if negb (contains log (transform_id t)) then
      let '(results, st1) := _applyTransform t st in (results, st1, Some [t])
    else (None, st, None) in
  let data :=
    match hint_data hints with
    | Some (HintMany ids) =>
        if (1 <? length (operations t))%nat then
          Ok (Some (RMany ((fun id => id ≫= cache_getRecordSync (_cache st1))
                             <$> ids)))
        else
          match cache_getRecordSync_array (_cache st1) ids with
          | Ok r => Ok (ROne <$> r)
          | Throw e => Throw e
          end
    | Some (HintOne i) => Ok (ROne <$> cache_getRecordSync (_cache st1) i)
    | None =>
        match results with
        | Some (RMany rs) =>
            if (length (operations t) =? 1)%nat
            then Ok (ROne <$> mjoin (rs !! 0%nat))
            else Ok results
        | _ => Ok results
        end
    end in
  match data with
  | Ok data => (Ok (mkResponse data (hint_details hints) transforms None), st1)
  | Throw e => (Throw e, st1)
  end.

(** [update] of the [@updatable] decorator on this source. *)
Definition update :=
  RequestFlow.update listeners noHints buildTransform _update.

(** [merge]. The loop pushes the operations of each transform onto
    [ops]; an [undefined] transform makes [t.operations] throw. *)
Definition pushOperations
    (t : option RecordTransform) (ops : list RecordOperation)
  : Outcome unit * list RecordOperation :=
  match t with
  | Some t => (Ok (), ops ++ operations t)
  | None => (Throw undefinedTransform, ops)
  end.

(** The transforms that [merge] takes from the forked source. *)
Definition mergeSelection
    (forkedSource : MemorySource) (options : MemorySourceMergeOptions)
  : Outcome (list (option RecordTransform)) :=
  match givenId (sinceTransformId options) with
  | Some id => transformsSince forkedSource id
  | None => Ok (allTransforms forkedSource)
  end.

Definition merge
    (forkedSource : MemorySource) (options : MemorySourceMergeOptions)
    (self : MemorySource)
  : Outcome (Resolved RecordOperation TransformResult Details Named)
    * MemorySource :=
  match mergeSelection forkedSource options with
  | Throw e => (Throw e, self)
  | Ok transforms =>
      match forEach pushOperations transforms [] with
      | (Throw e, _) => (Throw e, self)
      | (Ok _, ops) =>
          let ops :=
            match coalesce options with
            | Some false => ops
            | _ => coalesceRecordOperations ops
            end in
          let reducedTransform :=
            buildTransform (IsOperations ops) (transformOptions options) None in
          update (IsTransform reducedTransform) None None self
      end
  end.

(** [getTransform] and [getInverseOperations] *)
Definition getTransform (s : MemorySource) (transformId : string)
  : option RecordTransform :=
  _transforms (state s) !! transformId.

Definition getInverseOperations (s : MemorySource) (transformId : string)
  : option (list RecordOperation) :=
  _transformInverses (state s) !! transformId.

(** [_logCleared] and [_logTruncated], the listeners of the log's [clear]
    and [truncate] events. *)
Definition _logCleared (st : MemoryState) : MemoryState :=
  mkMemory (_cache st) (_base st) (_forkPoint st) ∅ ∅.

Definition _logTruncated (removed : list string) (st : MemoryState)
  : MemoryState :=
  foldl (fun st id => _clearTransformFromHistory id st) st removed.

(** The history is complete: every id of the log has its transform
    stored under it. *)
Definition historyComplete (s : MemorySource) : Prop :=
  ∀ id, id ∈ transformLog s →
        ∃ t, _transforms (state s) !! id = Some t ∧ transform_id t = id.

(** The inverse operations that the cache returns for each transform of
    a sequence, applied from [cache] on, restore the cache the transform
    was applied to. *)
Fixpoint undoable (cache : Cache) (ts : list RecordTransform) : Prop :=
  match ts with
  | [] => True
  | t :: rest =>
      let u := cache_update t cache in
      cache_patch (default [] u.2) u.1.1 = cache ∧ undoable u.1.1 rest
  end.

(** *** The loops on arrays without [undefined] *)

Definition undoAll (ts : list RecordTransform) (st : MemoryState)
  : MemoryState :=
  foldl (fun st t => undoTransform (transform_id t) st) st ts.

Definition applyAll (ts : list RecordTransform) (st : MemoryState)
  : MemoryState :=
  foldl (fun st t => (_applyTransform t st).2) st ts.

(** [rebase] in the spec's words: the locals are undone in reverse order
    and removed from the log, the base transforms are applied, the locals
    are applied again in their original order, and the fork point
    advances. *)
Definition rebase_as_specified
    (base self : MemorySource) (baseTs localTs : list RecordTransform)
  : MemorySource :=
  match baseTs with
  | [] => self
  | _ =>
      let undone := undoAll (reverse localTs) (state self) in
      let log :=
        List.filter
          (fun id => negb (bool_decide (id ∈ (transform_id <$> localTs))))
          (transformLog self) in
      withState (withLog self log)
        (withForkPoint (applyAll localTs (applyAll baseTs undone))
           (head (transformLog base)))
  end.

Lemma forEach_undoLocal ts st :
  forEach undoLocal (Some <$> ts) st = (Ok (), undoAll ts st).
Proof.
  revert st. induction ts as [|t ts IH]; intros st; simpl; [done|]. apply IH.
Qed.

Lemma forEach_applyOne ts st :
  forEach applyOne (Some <$> ts) st = (Ok (), applyAll ts st).
Proof.
  revert st. induction ts as [|t ts IH]; intros st; simpl; [done|]. apply IH.
Qed.

Lemma undoTransform_members id st :
  _base (undoTransform id st) = _base st
  ∧ _forkPoint (undoTransform id st) = _forkPoint st
  ∧ _transforms (undoTransform id st) = delete id (_transforms st)
  ∧ _transformInverses (undoTransform id st)
    = delete id (_transformInverses st).
Proof.
  unfold undoTransform. by destruct (_transformInverses st !! id).
Qed.

Lemma undoAll_snoc ts t st :
  undoAll (ts ++ [t]) st = undoTransform (transform_id t) (undoAll ts st).
Proof. unfold undoAll. by rewrite foldl_app. Qed.

Lemma undoAll_cleared ts st t :
  t ∈ ts →
  _transforms (undoAll ts st) !! transform_id t = None
  ∧ _transformInverses (undoAll ts st) !! transform_id t = None.
Proof.
  revert st. induction ts as [|t' ts IH] using rev_ind; intros st Hin.
  { by apply elem_of_nil in Hin. }
  rewrite undoAll_snoc.
  destruct (undoTransform_members (transform_id t') (undoAll ts st))
    as (_ & _ & -> & ->).
  destruct (decide (transform_id t = transform_id t')) as [->|Hne].
  { by rewrite !lookup_delete_eq. }
  rewrite !lookup_delete_ne by done.
  apply IH. apply elem_of_app in Hin as [?|Hin%list_elem_of_singleton]; [done|].
  by subst.
Qed.

(** What [rebase] computes when base and fork have a stored transform for
    every id of their logs. *)
Lemma rebase_exact sources self baseRef baseTs localTs :
  _base (state self) = Some baseRef →
  newBaseTransforms (sources baseRef) (_forkPoint (state self))
  = Ok (Some <$> baseTs) →
  allTransforms self = Some <$> localTs →
  rebase sources self
  = (Ok (),
     match baseTs with
     | [] => self
     | _ =>
         withState self
           (withForkPoint
              (applyAll (reverse localTs)
                 (applyAll baseTs (undoAll (reverse localTs) (state self))))
              (head (transformLog (sources baseRef))))
     end).
Proof.
  intros Hbase Hnew Hlocal. unfold rebase. rewrite Hbase, Hnew.
  destruct baseTs as [|b baseTs]; [done|].
  rewrite Hlocal. unfold js_reverse.
  rewrite <- fmap_reverse.
  change (0 <? length (Some <$> b :: baseTs))%nat with true. cbv iota.
  rewrite forEach_undoLocal. cbn [andThen].
  rewrite (forEach_applyOne (b :: baseTs)). cbn [andThen].
  by rewrite forEach_applyOne.
Qed.

(** *** Log positions *)

Lemma indexOf_fresh log id rest :
  id ∉ log → indexOf id (log ++ id :: rest) = Some (length log).
Proof.
  induction log as [|x log IH]; simpl; intros Hnotin.
  - by rewrite String.eqb_refl.
  - apply not_elem_of_cons in Hnotin as [Hne Hnotin].
    destruct (String.eqb_spec x id) as [->|_]; [done|].
    by rewrite IH.
Qed.

Lemma log_rollback_fresh log id removed :
  id ∉ log →
  log_rollback (log ++ id :: removed) id 0 = Ok (log ++ [id], removed).
Proof.
  intros Hnotin. unfold log_rollback, positionAfter.
  rewrite indexOf_fresh by done.
  rewrite length_app; simpl.
  destruct (_ || _)%Z eqn:Hrange.
  { apply orb_true_iff in Hrange as [?%Z.ltb_lt|?%Z.ltb_lt]; lia. }
  replace (Z.to_nat (Z.of_nat (length log) + 1 + 0)) with (length (log ++ [id])).
  2:{ rewrite length_app; simpl. lia. }
  rewrite (cons_middle id log removed), app_assoc.
  by rewrite take_app_length, drop_app_length.
Qed.

(** *** [_sync] of a transform that is not logged *)

Lemma _sync_fresh t s :
  transform_id t ∉ transformLog s →
  transformLog (_sync t s) = transformLog s ++ [transform_id t]
  ∧ state (_sync t s) = (_applyTransform t (state s)).2
  ∧ ∃ new, trace (_sync t s) = trace s ++ new
           ∧ observed new = firedAndSettled (EvTransform t).
Proof.
  intros Hnew. unfold _sync.
  apply contains_false in Hnew as Hc. rewrite Hc. simpl negb. cbv iota.
  destruct (transformed_fresh listeners noHints [t]
              (withState s (_applyTransform t (state s)).2))
    as (Hlog & Hst & new & Htr & Hobs).
  { apply NoDup_singleton. }
  { by apply Forall_singleton. }
  split; [done|]. split; [done|].
  exists new. split; [done|]. by rewrite Hobs.
Qed.


(** *** rebase *)

(** C10. [rebase] on a source without a base throws the assertion error
    before it reads or writes anything else: the source that comes back
    is the source that went in, with its cache, transform log, history of
    transforms and inverse operations, and fork point. *)
Theorem rebase_without_base_throws
    (sources : nat → MemorySource) (self : MemorySource) :
  _base (state self) = None →
  rebase sources self
  = (Throw (Assertion "A `base` source must be defined for `rebase` to work"),
     self).
Proof. intros Hbase. unfold rebase. by rewrite Hbase. Qed.

(** C2, as the code has it. Let the fork have a base, let [baseTs] be the
    transforms of the base since the fork point and [localTs] the fork's
    own transforms, in log order. When [baseTs] is empty, [rebase] changes
    nothing. Otherwise it (a) takes the local transforms in reverse order,
    patches the cache with the recorded inverse operations of each and
    clears it from the history of transforms ([_transforms] and
    [_transformInverses]), so that none of them is left there; (b) applies
    every base transform in order; (c) applies every local transform
    again; (d) sets the fork point to the head of the base's log. The
    fork's transform log is not touched: the ids of the local transforms
    stay in it. *)
Theorem rebase_steps
    (sources : nat → MemorySource) (self : MemorySource) (baseRef : nat)
    (baseTs localTs : list RecordTransform) :
  _base (state self) = Some baseRef →
  newBaseTransforms (sources baseRef) (_forkPoint (state self))
  = Ok (Some <$> baseTs) →
  allTransforms self = Some <$> localTs →
  let undone := undoAll (reverse localTs) (state self) in
  ∃ reapplied s',
    reapplied ≡ₚ localTs
    ∧ rebase sources self = (Ok (), s')
    ∧ s' = match baseTs with
           | [] => self
           | _ => withState self
                    (withForkPoint (applyAll reapplied (applyAll baseTs undone))
                       (head (transformLog (sources baseRef))))
           end
    ∧ transformLog s' = transformLog self
    ∧ ∀ t, t ∈ localTs →
           _transforms undone !! transform_id t = None
           ∧ _transformInverses undone !! transform_id t = None.
Proof.
  intros Hbase Hnew Hlocal undone.
  exists (reverse localTs). eexists. split.
  { apply reverse_Permutation. }
  split.
  { by apply rebase_exact. }
  split; [done|]. split.
  { by destruct baseTs. }
  intros t Hin. apply undoAll_cleared. by apply elem_of_reverse.
Qed.

(** *** rollback *)

Lemma _applyTransform_members t st :
  _cache (_applyTransform t st).2 = (cache_update t (_cache st)).1.1
  ∧ _transforms (_applyTransform t st).2
    = <[transform_id t := t]> (_transforms st)
  ∧ _transformInverses (_applyTransform t st).2
    = <[transform_id t := default [] (cache_update t (_cache st)).2]>
        (_transformInverses st).
Proof.
  unfold _applyTransform. by destruct (cache_update t (_cache st)) as [[c d] i].
Qed.


Lemma undoTransform_cache id st :
  _cache (undoTransform id st)
  = match _transformInverses st !! id with
    | Some inverseOperations => cache_patch inverseOperations (_cache st)
    | None => _cache st
    end.
Proof. unfold undoTransform. by destruct (_transformInverses st !! id). Qed.



(** *** merge *)

Lemma forEach_pushOperations ts ops :
  forEach pushOperations (Some <$> ts) ops
  = (Ok (), ops ++ concat (operations <$> ts)).
Proof.
  revert ops. induction ts as [|t ts IH]; intros ops; simpl.
  - by rewrite app_nil_r.
  - rewrite IH. by rewrite <- app_assoc.
Qed.

(** C5. [merge] selects the forked source's transforms since
    [sinceTransformId] when that option is given (a string that is not
    empty, as [if (options.sinceTransformId)] tests it) and all of its
    transforms otherwise. With [ts] the selected transforms, it
    concatenates their operations in order, coalesces the sequence unless
    [options.coalesce] is [false], builds one transform from the result
    with [options.transformOptions], and its result is the result of
    [this.update] on that one transform. *)
Theorem merge_updates_with_one_reduced_transform
    (forkedSource self : MemorySource) (options : MemorySourceMergeOptions)
    (ts : list RecordTransform) :
  mergeSelection forkedSource options = Ok (Some <$> ts) →
  let ops := concat (operations <$> ts) in
  let reducedTransform :=
    buildTransform
      (IsOperations (if bool_decide (coalesce options = Some false) then ops
                     else coalesceRecordOperations ops))
      (transformOptions options) None in
  merge forkedSource options self
  = update (IsTransform reducedTransform) None None self
  ∧ mergeSelection forkedSource options
    = match sinceTransformId options with
      | Some id => if String.eqb id "" then Ok (allTransforms forkedSource)
                   else transformsSince forkedSource id
      | None => Ok (allTransforms forkedSource)
      end.
Proof.
  intros Hsel ops reducedTransform. split.
  - unfold merge. rewrite Hsel, forEach_pushOperations. simpl.
    subst reducedTransform ops.
    by destruct (coalesce options) as [[|]|].
  - unfold mergeSelection, givenId.
    destruct (sinceTransformId options) as [id|]; [|done].
    by destruct (String.eqb id "").
Qed.

(** *** Applying a transform once *)

Lemma fulfillInSeries_keeps ev h (s : MemorySource) o h' s1 :
  fulfillInSeries listeners ev h s = (o, h', s1) →
  transformLog s1 = transformLog s ∧ state s1 = state s.
Proof.
  unfold fulfillInSeries.
  destruct (fulfillLoop _ _ _ _) as [[[rs|e] h2] st2]; by intros [= <- <- <-].
Qed.

Lemma _update_new t hints log st o st1 :
  contains log (transform_id t) = false →
  _update t hints log st = (o, st1) →
  st1 = (_applyTransform t st).2
  ∧ ∀ r, o = Ok r → transforms r = Some [t].
Proof.
  intros Hnew. unfold _update. rewrite Hnew. simpl negb. cbv iota.
  destruct (_applyTransform t st) as [results st']. simpl.
  match goal with
  | |- match ?d with _ => _ end = _ → _ => destruct d as [d0|e]
  end; intros [= <- <-]; (split; [done|]); intros r [= <-]; done.
Qed.

(** X11. [_sync] applies a transform at most once: a transform whose id
    is logged leaves the source as it is, and so [_sync] of the same
    transform a second time changes nothing. The first [_sync] of a new
    transform logs its id at the head of the log and stores the
    transform and its inverse operations in the history. *)
Theorem _sync_applies_once (t : RecordTransform) (s : MemorySource) :
  _sync t (_sync t s) = _sync t s
  ∧ (transform_id t ∈ transformLog s → _sync t s = s)
  ∧ (transform_id t ∉ transformLog s →
       head (transformLog (_sync t s)) = Some (transform_id t)
       ∧ getTransform (_sync t s) (transform_id t) = Some t
       ∧ getInverseOperations (_sync t s) (transform_id t)
         = Some (default [] (cache_update t (_cache (state s))).2)).
Proof.
  assert (transform_id t ∈ transformLog s → _sync t s = s) as Hlogged.
  { intros Hin%contains_true. unfold _sync. by rewrite Hin. }
  split; [|split; [exact Hlogged|]].
  - destruct (decide (transform_id t ∈ transformLog s)) as [Hin|Hnew].
    + by rewrite !Hlogged.
    + destruct (_sync_fresh t s Hnew) as (Hlog & _).
      unfold _sync at 1.
      rewrite (proj2 (contains_true _ _)); [done|].
      rewrite Hlog. apply elem_of_app. right. apply elem_of_cons. by left.
  - intros Hnew. destruct (_sync_fresh t s Hnew) as (Hlog & Hst & _).
    unfold head, getTransform, getInverseOperations. rewrite Hlog, Hst.
    destruct (_applyTransform_members t (state s)) as (_ & -> & ->).
    rewrite last_snoc, !lookup_insert_eq. done.
Qed.

(** What [update] does with a transform that is not logged, when it
    succeeds. *)
Lemma update_new_transform
    (transformOrOperations : TransformOrOperations RecordOperation)
    (options : option RequestOptions) (id : option string)
    (s s' : MemorySource)
    (resolved : Resolved RecordOperation TransformResult Details Named) :
  let t := buildTransform transformOrOperations options id in
  transform_id t ∉ transformLog s →
  update transformOrOperations options id s = (Ok resolved, s') →
  transformLog s' = transformLog s ++ [transform_id t]
  ∧ head (transformLog s') = Some (transform_id t)
  ∧ getTransform s' (transform_id t) = Some t
  ∧ _cache (state s') = (cache_update t (_cache (state s))).1.1
  ∧ update transformOrOperations options id s'
    = (Ok (if wantsFullResponse options
           then ResolvedFull (mkResponse None None (Some []) None)
           else ResolvedTransforms []), s').
Proof.
  intros t Hnew. unfold update, RequestFlow.update. fold t.
  apply contains_false in Hnew as Hc. rewrite Hc.
  unfold _enqueueRequest_update, __update__. rewrite Hc.
  destruct (fulfillInSeries _ _ _ _) as [[[rs|e] h] s1] eqn:Hbefore; [|done].
  apply fulfillInSeries_keeps in Hbefore as [Hlog1 Hst1].
  destruct (_update t h (transformLog s1) (state s1)) as [[r|e] st2] eqn:Hrun;
    [|done].
  rewrite Hlog1 in Hrun. apply _update_new in Hrun as [-> Hts]; [|done].
  specialize (Hts r eq_refl).
  match goal with
  | |- (Ok _, settleInSeries _ _ ?ev (transformedIfAny _ _ ?r' ?s2)) = _ → _ =>
      set (post := ev); set (response := r'); set (applied := s2)
  end.
  assert (transforms response = Some [t]) as Hts'.
  { subst response. by destruct (includeSources _). }
  intros [= _ <-].
  rewrite transformedIfAny_eq, Hts'. simpl default.
  destruct (transformed_fresh listeners noHints [t] applied) as (Hlog & Hst & _).
  { apply NoDup_singleton. }
  { apply Forall_singleton. simpl. by rewrite Hlog1. }
  set (final := settleInSeries listeners noHints post
                  (transformed listeners noHints [t] applied)).
  assert (transformLog final = transformLog s ++ [transform_id t]) as Hflog.
  { subst final. rewrite settleInSeries_log, Hlog. simpl. by rewrite Hlog1. }
  assert (state final = (_applyTransform t (state s)).2) as Hfst.
  { subst final. rewrite settleInSeries_state, Hst. simpl. by rewrite Hst1. }
  clearbody final.
  destruct (_applyTransform_members t (state s)) as (Hc1 & Ht1 & _).
  unfold head, getTransform. rewrite Hflog, Hfst, last_snoc, Ht1, Hc1.
  rewrite lookup_insert_eq. repeat split; try done.
  rewrite (proj2 (contains_true _ _)); [done|].
  apply elem_of_app. right. apply elem_of_cons. by left.
Qed.

(** X12. [update] on a memory source performs the work once. When
    [update] of a transform that is not logged succeeds, the id of the
    transform is the new head of the log, the transform is stored in
    the history, the cache is the one [cache.update] returned, and the
    same [update] again resolves with empty transforms and changes
    nothing. *)
Theorem memory_update_once
    (transformOrOperations : TransformOrOperations RecordOperation)
    (options : option RequestOptions) (id : option string)
    (s s' : MemorySource)
    (resolved : Resolved RecordOperation TransformResult Details Named) :
  let t := buildTransform transformOrOperations options id in
  transform_id t ∉ transformLog s →
  update transformOrOperations options id s = (Ok resolved, s') →
  transformLog s' = transformLog s ++ [transform_id t]
  ∧ head (transformLog s') = Some (transform_id t)
  ∧ getTransform s' (transform_id t) = Some t
  ∧ _cache (state s') = (cache_update t (_cache (state s))).1.1
  ∧ update transformOrOperations options id s'
    = (Ok (if wantsFullResponse options
           then ResolvedFull (mkResponse None None (Some []) None)
           else ResolvedTransforms []), s').
Proof.
  exact (update_new_transform transformOrOperations options id s s'
           resolved).
Qed.

(** *** The history stays complete *)

Lemma applyAll_snoc ts t st :
  applyAll (ts ++ [t]) st = (_applyTransform t (applyAll ts st)).2.
Proof. unfold applyAll. by rewrite foldl_app. Qed.

Lemma applyAll_stored ts st t :
  t ∈ ts →
  ∃ t', _transforms (applyAll ts st) !! transform_id t = Some t'
        ∧ transform_id t' = transform_id t.
Proof.
  induction ts as [|x ts IH] using rev_ind; intros Hin.
  { by apply elem_of_nil in Hin. }
  rewrite applyAll_snoc.
  destruct (_applyTransform_members x (applyAll ts st)) as (_ & -> & _).
  destruct (decide (transform_id x = transform_id t)) as [Heq|Hne].
  { rewrite Heq, lookup_insert_eq. by exists x. }
  rewrite lookup_insert_ne by done. apply IH.
  apply elem_of_app in Hin as [?|Hx%list_elem_of_singleton]; [done|].
  by subst.
Qed.

Lemma stored_transforms (m : gmap string RecordTransform) (ids : list string) :
  (∀ id, id ∈ ids → ∃ t, m !! id = Some t ∧ transform_id t = id) →
  ∃ ts, (fun id => m !! id) <$> ids = Some <$> ts
        ∧ transform_id <$> ts = ids.
Proof.
  induction ids as [|id ids IH]; intros Hall.
  { by exists []. }
  destruct (Hall id) as (t & Ht & Hid); [apply elem_of_cons; by left|].
  destruct IH as (ts & Hts & Hids).
  { intros id' Hin. apply Hall, elem_of_cons. by right. }
  exists (t :: ts). rewrite !fmap_cons, Ht, Hts, Hid, Hids. done.
Qed.

Lemma historyComplete_allTransforms s :
  historyComplete s →
  ∃ ts, allTransforms s = Some <$> ts
        ∧ transform_id <$> ts = transformLog s.
Proof. intros Hc. by apply stored_transforms. Qed.

Lemma indexOf_logged log id :
  id ∈ log → ∃ index, indexOf id log = Some index ∧ index < length log.
Proof.
  induction log as [|x log IH]; [by intros ?%elem_of_nil|].
  intros Hin. simpl. destruct (String.eqb_spec x id) as [->|Hne].
  { exists 0. split; [done|lia]. }
  apply elem_of_cons in Hin as [->|Hin]; [done|].
  destruct (IH Hin) as (index & -> & Hlt). exists (S index).
  split; [done|lia].
Qed.

Lemma after_logged log id :
  id ∈ log → ∃ index, after log id 0 = Ok (drop (S index) log).
Proof.
  intros (index & Hindex & Hlt)%indexOf_logged.
  exists index. unfold after, positionAfter. rewrite Hindex.
  destruct (_ || _)%Z eqn:Hrange.
  { apply orb_true_iff in Hrange as [?%Z.ltb_lt|?%Z.ltb_lt]; lia. }
  by replace (Z.to_nat (Z.of_nat index + 1 + 0)) with (S index) by lia.
Qed.

Lemma undoIds_lookup ids st id :
  let st' := foldl (fun st id => undoTransform id st) st ids in
  _base st' = _base st
  ∧ _forkPoint st' = _forkPoint st
  ∧ _transforms st' !! id
    = (if bool_decide (id ∈ ids) then None else _transforms st !! id)
  ∧ _transformInverses st' !! id
    = (if bool_decide (id ∈ ids) then None else _transformInverses st !! id).
Proof.
  revert st. induction ids as [|x ids IH]; intros st; [done|].
  cbn [foldl]. destruct (IH (undoTransform x st)) as (-> & -> & -> & ->).
  destruct (undoTransform_members x st) as (-> & -> & -> & ->).
  do 2 (split; [done|]).
  destruct (decide (id = x)) as [->|Hne].
  - rewrite !lookup_delete_eq.
    rewrite (bool_decide_eq_true_2 (x ∈ x :: ids))
      by (apply elem_of_cons; by left).
    by case_bool_decide.
  - rewrite !lookup_delete_ne by done.
    case_bool_decide as Hin.
    + rewrite bool_decide_eq_true_2; [done|]. apply elem_of_cons. by right.
    + rewrite bool_decide_eq_false_2; [done|].
      by intros [?|?]%elem_of_cons.
Qed.

(** A complete history can be checked by running through the log. *)
Lemma historyComplete_check (s : MemorySource) :
  forallb (fun id => match _transforms (state s) !! id with
                     | Some t => String.eqb (transform_id t) id
                     | None => false
                     end) (transformLog s) = true →
  historyComplete s.
Proof.
  intros Hall id Hin. rewrite forallb_forall in Hall.
  apply list_elem_of_In in Hin. specialize (Hall id Hin).
  destruct (_transforms (state s) !! id) as [t|]; [|done].
  exists t. split; [done|]. by apply String.eqb_eq.
Qed.

(** X13. The invariants of a memory source's history are kept by
    [_sync] and by [rollback]: when the log has no repeated id and every
    logged id has its transform stored under it, the same holds
    afterwards. A successful [rollback] keeps a prefix of the log, and
    none of the discarded ids has a transform or inverse operations
    left in the history; a [rollback] that throws changes nothing. *)
Theorem history_invariants_kept (s : MemorySource) :
  NoDup (transformLog s) →
  historyComplete s →
  (∀ t, NoDup (transformLog (_sync t s)) ∧ historyComplete (_sync t s))
  ∧ (∀ transformId relativePosition,
       match rollback transformId relativePosition s with
       | (Ok _, s') =>
           NoDup (transformLog s') ∧ historyComplete s'
           ∧ ∃ removed,
               transformLog s = transformLog s' ++ removed
               ∧ ∀ id, id ∈ removed →
                       getTransform s' id = None
                       ∧ getInverseOperations s' id = None
       | (Throw _, s') => s' = s
       end).
Proof.
  intros Hnd Hc. split.
  - intros t. destruct (decide (transform_id t ∈ transformLog s)) as [Hin|Hnew].
    { apply contains_true in Hin. unfold _sync. by rewrite Hin. }
    destruct (_sync_fresh t s Hnew) as (Hlog & Hst & _).
    split.
    + rewrite Hlog. apply NoDup_app. split; [done|]. split.
      * intros id Hid Hx%list_elem_of_singleton. by subst.
      * apply NoDup_singleton.
    + intros id. rewrite Hlog, Hst.
      destruct (_applyTransform_members t (state s)) as (_ & -> & _).
      intros Hid. destruct (decide (id = transform_id t)) as [->|Hne].
      { rewrite lookup_insert_eq. by exists t. }
      rewrite lookup_insert_ne by done. apply Hc.
      apply elem_of_app in Hid as [?|?%list_elem_of_singleton]; done.
  - intros transformId relativePosition. unfold rollback, log_rollback.
    destruct (positionAfter _ _ _) as [position|e]; [|done].
    pose proof (take_drop position (transformLog s)) as Hsplit.
    rewrite <- Hsplit in Hnd.
    apply NoDup_app in Hnd as (Hretained & Hdisjoint & _).
    simpl. split; [done|].
    unfold _logRolledback, js_reverse.
    split.
    + intros id Hid. cbn [state withState] in *.
      destruct (undoIds_lookup (reverse (drop position (transformLog s)))
                  (state s) id) as (_ & _ & -> & _).
      rewrite bool_decide_eq_false_2.
      2:{ rewrite elem_of_reverse. by apply Hdisjoint. }
      apply Hc. rewrite <- Hsplit. apply elem_of_app. by left.
    + exists (drop position (transformLog s)). split; [done|].
      intros id Hid. unfold getTransform, getInverseOperations.
      cbn [state withState].
      destruct (undoIds_lookup (reverse (drop position (transformLog s)))
                  (state s) id) as (_ & _ & -> & ->).
      rewrite bool_decide_eq_true_2; [done|]. by rewrite elem_of_reverse.
Qed.

(** *** rebase on sources with a complete history *)

Lemma newBaseTransforms_complete base forkPoint :
  historyComplete base →
  from_option (fun id => id ∈ transformLog base) True forkPoint →
  ∃ baseTs, newBaseTransforms base forkPoint = Ok (Some <$> baseTs).
Proof.
  intros Hc Hfork. unfold newBaseTransforms.
  destruct forkPoint as [fp|]; simpl in Hfork.
  - unfold transformsSince.
    destruct (after_logged _ _ Hfork) as (index & ->).
    destruct (stored_transforms (_transforms (state base))
                (drop (S index) (transformLog base))) as (ts & -> & _);
      [|by exists ts].
    intros id Hid. apply Hc. rewrite <- (take_drop (S index) (transformLog base)).
    apply elem_of_app. by right.
  - destruct (historyComplete_allTransforms base Hc) as (ts & -> & _).
    by exists ts.
Qed.

(** X14. [rebase] goes through on sources with a complete history. When
    the fork and its base both have a stored transform for every id of
    their logs, and the fork point is an id of the base's log (or
    [undefined], for a base that was empty), [rebase] does not throw,
    leaves the fork's log as it is, and the fork's history is complete
    again afterwards. *)
Theorem rebase_of_complete_sources
    (sources : nat → MemorySource) (self : MemorySource) (baseRef : nat) :
  _base (state self) = Some baseRef →
  historyComplete self →
  historyComplete (sources baseRef) →
  from_option (fun id => id ∈ transformLog (sources baseRef)) True
    (_forkPoint (state self)) →
  ∃ s',
    rebase sources self = (Ok (), s')
    ∧ transformLog s' = transformLog self
    ∧ historyComplete s'.
Proof.
  intros Hbase Hself Hcomplete Hfork.
  destruct (newBaseTransforms_complete _ _ Hcomplete Hfork) as (baseTs & Hnew).
  destruct (historyComplete_allTransforms self Hself) as (localTs & Hlocal & Hids).
  eexists. split; [by apply (rebase_exact sources self baseRef baseTs localTs)|].
  destruct baseTs as [|b baseTs]; [done|].
  split; [done|].
  intros id Hid. cbn [state withState withForkPoint _transforms].
  cbn [transformLog withState] in Hid. rewrite <- Hids in Hid.
  apply list_elem_of_fmap in Hid as (t & -> & Hin).
  apply applyAll_stored. by apply elem_of_reverse.
Qed.

(** *** rebase when the base has not moved *)

Lemma last_NoDup_split (log : list string) h :
  NoDup log → last log = Some h → ∃ l, log = l ++ [h] ∧ h ∉ l.
Proof.
  intros Hnd Hlast. destruct log as [|x log] using rev_ind; [done|].
  rewrite last_snoc in Hlast. injection Hlast as ->.
  exists log. split; [done|].
  apply NoDup_app in Hnd as (_ & Hdisjoint & _).
  intros Hin. apply (Hdisjoint h Hin). apply elem_of_cons. by left.
Qed.

Lemma after_head log h :
  NoDup log → head log = Some h → after log h 0 = Ok [].
Proof.
  intros Hnd Hhead. destruct (last_NoDup_split log h Hnd Hhead) as (l & -> & Hnotin).
  unfold after, positionAfter. rewrite indexOf_fresh by done.
  rewrite length_app; simpl.
  destruct (_ || _)%Z eqn:Hrange.
  { apply orb_true_iff in Hrange as [?%Z.ltb_lt|?%Z.ltb_lt]; lia. }
  replace (Z.to_nat (Z.of_nat (length l) + 1 + 0)) with (length (l ++ [h])).
  2:{ rewrite length_app; simpl. lia. }
  by rewrite drop_all.
Qed.

Lemma rebase_at_base_head sources self baseRef :
  _base (state self) = Some baseRef →
  _forkPoint (state self) = head (transformLog (sources baseRef)) →
  NoDup (transformLog (sources baseRef)) →
  rebase sources self = (Ok (), self).
Proof.
  intros Hbase Hfork Hnd. unfold rebase, newBaseTransforms.
  rewrite Hbase, Hfork.
  destruct (head (transformLog (sources baseRef))) as [h|] eqn:Hhead.
  - unfold transformsSince. by rewrite (after_head _ _ Hnd Hhead).
  - unfold allTransforms. unfold head in Hhead.
    apply last_None in Hhead. by rewrite Hhead.
Qed.

Lemma forEach_keeps_base {A : Type}
    (f : A → MemoryState → Outcome unit * MemoryState) l st :
  (∀ a st, _base (f a st).2 = _base st) →
  _base (forEach f l st).2 = _base st.
Proof.
  intros Hf. revert st. induction l as [|a l IH]; intros st; simpl; [done|].
  specialize (Hf a st). destruct (f a st) as [[[]|e] st']; simpl in *.
  - by rewrite IH.
  - done.
Qed.

Lemma undoLocal_keeps_base t st : _base (undoLocal t st).2 = _base st.
Proof.
  destruct t as [t|]; [|done].
  exact (proj1 (undoTransform_members (transform_id t) st)).
Qed.

Lemma applyOne_keeps_base t st : _base (applyOne t st).2 = _base st.
Proof.
  destruct t as [t|]; simpl; [|done]. unfold _applyTransform.
  by destruct (cache_update t (_cache st)) as [[c d] i].
Qed.

(** X15. [rebase] does nothing while the base has not moved. Right
    after [fork], and right after a [rebase] that went through, a
    [rebase] against the same base (whose log has no repeated id)
    returns without changing the fork: the fork point is the head of
    the base's log, so there are no base transforms to replay. *)
Theorem rebase_without_new_base_transforms
    (sources : nat → MemorySource) (baseRef : nat) (w : W) :
  NoDup (transformLog (sources baseRef)) →
  rebase sources (fork baseRef (sources baseRef) w)
  = (Ok (), fork baseRef (sources baseRef) w)
  ∧ ∀ self rebased,
      _base (state self) = Some baseRef →
      rebase sources self = (Ok (), rebased) →
      rebase sources rebased = (Ok (), rebased).
Proof.
  intros Hnd. split.
  { by apply (rebase_at_base_head sources _ baseRef). }
  intros self rebased Hbase. unfold rebase at 1. rewrite Hbase.
  destruct (newBaseTransforms _ _) as [baseTransforms|e] eqn:Hnew; [|done].
  destruct (0 <? length baseTransforms)%nat eqn:Hlen.
  2:{ intros [= <-]. unfold rebase. by rewrite Hbase, Hnew, Hlen. }
  unfold js_reverse.
  destruct (forEach undoLocal (reverse (allTransforms self)) (state self))
    as [[[]|e] st1] eqn:H1; simpl; [|done].
  destruct (forEach applyOne baseTransforms st1) as [[[]|e] st2] eqn:H2;
    simpl; [|done].
  destruct (forEach applyOne (reverse (allTransforms self)) st2)
    as [[[]|e] st3] eqn:H3; simpl; [|done].
  intros [= <-].
  apply (rebase_at_base_head sources _ baseRef); [|done..].
  cbn [state withState withForkPoint _base]. rewrite <- Hbase.
  pose proof (forEach_keeps_base undoLocal
                (reverse (allTransforms self)) (state self)
                undoLocal_keeps_base) as B1.
  pose proof (forEach_keeps_base applyOne baseTransforms st1
                applyOne_keeps_base) as B2.
  pose proof (forEach_keeps_base applyOne
                (reverse (allTransforms self)) st2
                applyOne_keeps_base) as B3.
  rewrite H1 in B1. rewrite H2 in B2. rewrite H3 in B3. simpl in *.
  congruence.
Qed.

(** *** rollback after any number of transforms *)

Lemma syncAll_fresh ts (s : MemorySource) :
  NoDup (transform_id <$> ts) →
  Forall (fun t => transform_id t ∉ transformLog s) ts →
  let s' := foldl (fun s t => _sync t s) s ts in
  transformLog s' = transformLog s ++ (transform_id <$> ts)
  ∧ state s' = applyAll ts (state s).
Proof.
  revert s. induction ts as [|t ts IH]; intros s Hnd Hfresh.
  { simpl. by rewrite app_nil_r. }
  rewrite fmap_cons in Hnd. apply NoDup_cons in Hnd as [Hnotin Hnd].
  apply Forall_cons in Hfresh as [Ht Hfresh].
  destruct (_sync_fresh t s Ht) as (Hlog & Hst & _).
  cbn [foldl]. destruct (IH (_sync t s) Hnd) as [Hlog' Hst'].
  { apply Forall_forall. intros x Hx. rewrite Hlog.
    rewrite Forall_forall in Hfresh.
    intros [?|Heq%list_elem_of_singleton]%elem_of_app.
    - by apply (Hfresh x).
    - apply Hnotin. rewrite <- Heq. by apply list_elem_of_fmap_2. }
  rewrite Hlog', Hst', Hlog, Hst. split; [|done].
  by rewrite <- app_assoc.
Qed.

Lemma applyAll_inverses_other ts st id :
  id ∉ (transform_id <$> ts) →
  _transformInverses (applyAll ts st) !! id = _transformInverses st !! id.
Proof.
  revert st. induction ts as [|t ts IH]; intros st Hnotin; [done|].
  rewrite fmap_cons in Hnotin. apply not_elem_of_cons in Hnotin as [Hne Hnotin].
  change (applyAll (t :: ts) st) with (applyAll ts (_applyTransform t st).2).
  rewrite IH by done.
  destruct (_applyTransform_members t st) as (_ & _ & ->).
  by rewrite lookup_insert_ne.
Qed.

Lemma undo_applied_run ts st :
  NoDup (transform_id <$> ts) →
  undoable (_cache st) ts →
  _cache (foldl (fun st id => undoTransform id st) (applyAll ts st)
            (reverse (transform_id <$> ts)))
  = _cache st.
Proof.
  revert st. induction ts as [|t ts IH]; intros st Hnd Hundo; [done|].
  rewrite fmap_cons in Hnd. apply NoDup_cons in Hnd as [Hnotin Hnd].
  destruct Hundo as [Hinverse Hundo].
  change (applyAll (t :: ts) st) with (applyAll ts (_applyTransform t st).2).
  rewrite fmap_cons, reverse_cons, foldl_app. cbn [foldl].
  destruct (_applyTransform_members t st) as (Hc & _ & Hi).
  set (st1 := (_applyTransform t st).2) in *.
  rewrite <- Hc in Hundo, Hinverse.
  specialize (IH st1 Hnd Hundo).
  set (inner := foldl _ (applyAll ts st1) _) in *.
  rewrite undoTransform_cache.
  destruct (undoIds_lookup (reverse (transform_id <$> ts)) (applyAll ts st1)
              (transform_id t)) as (_ & _ & _ & Hlook).
  fold inner in Hlook. rewrite Hlook.
  rewrite bool_decide_eq_false_2 by (by rewrite elem_of_reverse).
  rewrite applyAll_inverses_other by done.
  rewrite Hi, lookup_insert_eq, IH. exact Hinverse.
Qed.

(** X16. [rollback] undoes any number of transforms. A memory source
    applies [t] and then the transforms [ts], all with ids that are new
    to the log and distinct. When the inverse operations that the cache
    returned along this run restore the cache each transform was
    applied to, [rollback] to [t] gives back the log and the cache as
    they were right after [t], and none of [ts] is left in the
    history. *)
Theorem rollback_undoes_run
    (s0 : MemorySource) (t : RecordTransform) (ts : list RecordTransform) :
  NoDup (transform_id <$> t :: ts) →
  Forall (fun x => transform_id x ∉ transformLog s0) (t :: ts) →
  let s1 := _sync t s0 in
  let sn := foldl (fun s x => _sync x s) s1 ts in
  undoable (_cache (state s1)) ts →
  ∃ s',
    rollback (transform_id t) 0 sn = (Ok (), s')
    ∧ transformLog s' = transformLog s1
    ∧ _cache (state s') = _cache (state s1)
    ∧ ∀ x, x ∈ ts → getTransform s' (transform_id x) = None
                     ∧ getInverseOperations s' (transform_id x) = None.
Proof.
  intros Hnd Hfresh s1 sn Hundo.
  rewrite fmap_cons in Hnd. apply NoDup_cons in Hnd as [Hnotin Hnd].
  apply Forall_cons in Hfresh as [Ht Hfresh].
  destruct (_sync_fresh t s0 Ht) as (Hlog1 & Hst1 & _). fold s1 in Hlog1, Hst1.
  destruct (syncAll_fresh ts s1 Hnd) as [Hlogn Hstn].
  { apply Forall_forall. intros x Hx. rewrite Hlog1.
    rewrite Forall_forall in Hfresh.
    intros [?|Heq%list_elem_of_singleton]%elem_of_app.
    - by apply (Hfresh x).
    - apply Hnotin. rewrite <- Heq. by apply list_elem_of_fmap_2. }
  fold sn in Hlogn, Hstn.
  assert (transformLog sn
          = transformLog s0 ++ transform_id t :: (transform_id <$> ts)) as Hlog.
  { rewrite Hlogn, Hlog1. by rewrite <- app_assoc. }
  eexists. split.
  { unfold rollback. rewrite Hlog, log_rollback_fresh by done. reflexivity. }
  cbn [transformLog state withState withLog].
  split; [by rewrite Hlog1|].
  unfold _logRolledback, js_reverse. rewrite Hstn.
  split; [by apply undo_applied_run|].
  intros x Hx. unfold getTransform, getInverseOperations.
  cbn [state withState].
  destruct (undoIds_lookup (reverse (transform_id <$> ts))
              (applyAll ts (state s1)) (transform_id x))
    as (_ & _ & -> & ->).
  rewrite bool_decide_eq_true_2; [done|].
  rewrite elem_of_reverse. by apply list_elem_of_fmap_2.
Qed.

(** *** merge into a memory source *)

Lemma merge_of_selection
    (forkedSource self : MemorySource) (options : MemorySourceMergeOptions)
    (ts : list RecordTransform) :
  mergeSelection forkedSource options = Ok (Some <$> ts) →
  merge forkedSource options self
  = update
      (IsTransform
         (buildTransform
            (IsOperations
               (if bool_decide (coalesce options = Some false)
                then concat (operations <$> ts)
                else coalesceRecordOperations (concat (operations <$> ts))))
            (transformOptions options) None))
      None None self.
Proof.
  intros Hsel. unfold merge. rewrite Hsel, forEach_pushOperations. simpl.
  by destruct (coalesce options) as [[|]|].
Qed.

(** X17. A successful [merge] logs one transform in the source that
    merges, however many transforms the forked source has: the id of
    the reduced transform becomes the head of the log, the reduced
    transform is stored in the history, and the cache is the one
    [cache.update] returned for it. (The reduced transform is one that
    [buildTransform] returns as it is, and its id is new to the log.) *)
Theorem merge_logs_one_transform
    (forkedSource self s' : MemorySource) (options : MemorySourceMergeOptions)
    (ts : list RecordTransform)
    (resolved : Resolved RecordOperation TransformResult Details Named) :
  mergeSelection forkedSource options = Ok (Some <$> ts) →
  let ops := concat (operations <$> ts) in
  let reducedTransform :=
    buildTransform
      (IsOperations (if bool_decide (coalesce options = Some false) then ops
                     else coalesceRecordOperations ops))
      (transformOptions options) None in
  buildTransform (IsTransform reducedTransform) None None = reducedTransform →
  transform_id reducedTransform ∉ transformLog self →
  merge forkedSource options self = (Ok resolved, s') →
  transformLog s' = transformLog self ++ [transform_id reducedTransform]
  ∧ getTransform s' (transform_id reducedTransform) = Some reducedTransform
  ∧ _cache (state s')
    = (cache_update reducedTransform (_cache (state self))).1.1.
Proof.
  intros Hsel ops reducedTransform Hbuilt Hnew.
  rewrite (merge_of_selection forkedSource self options ts Hsel).
  fold ops. fold reducedTransform. intros Hrun.
  destruct (update_new_transform (IsTransform reducedTransform) None None
              self s' resolved) as (Hlog & _ & Hget & Hcache & _).
  { by rewrite Hbuilt. }
  { exact Hrun. }
  rewrite Hbuilt in Hlog, Hget, Hcache. done.
Qed.

(** *** truncate and clear *)

(** X18. The listeners of the log's [truncate] and [clear] events forget
    transforms without touching the cache: after [_logTruncated], the
    removed ids have no transform and no inverse operations in the
    history and the other ids have what they had; after [_logCleared]
    the history is empty; the cache is the same in both cases, so what
    was truncated can no longer be rolled back. *)
Theorem truncate_and_clear_forget
    (removed : list string) (st : MemoryState) (id : string) :
  _cache (_logTruncated removed st) = _cache st
  ∧ _transforms (_logTruncated removed st) !! id
    = (if bool_decide (id ∈ removed) then None else _transforms st !! id)
  ∧ _transformInverses (_logTruncated removed st) !! id
    = (if bool_decide (id ∈ removed) then None
       else _transformInverses st !! id)
  ∧ _cache (_logCleared st) = _cache st
  ∧ _transforms (_logCleared st) !! id = None
  ∧ _transformInverses (_logCleared st) !! id = None.
Proof.
  assert (_cache (_logTruncated removed st) = _cache st
          ∧ _transforms (_logTruncated removed st) !! id
            = (if bool_decide (id ∈ removed) then None
               else _transforms st !! id)
          ∧ _transformInverses (_logTruncated removed st) !! id
            = (if bool_decide (id ∈ removed) then None
               else _transformInverses st !! id)) as (? & ? & ?).
  { unfold _logTruncated. revert st.
    induction removed as [|x removed IH]; intros st; [done|].
    cbn [foldl]. destruct (IH (_clearTransformFromHistory x st))
      as (-> & -> & ->).
    split; [done|]. cbn [_clearTransformFromHistory _transforms
                         _transformInverses].
    destruct (decide (id = x)) as [->|Hne].
    - rewrite !lookup_delete_eq.
      rewrite (bool_decide_eq_true_2 (x ∈ x :: removed))
        by (apply elem_of_cons; by left).
      by case_bool_decide.
    - rewrite !lookup_delete_ne by done.
      case_bool_decide as Hin.
      + rewrite bool_decide_eq_true_2; [done|]. apply elem_of_cons. by right.
      + rewrite bool_decide_eq_false_2; [done|].
        by intros [?|?]%elem_of_cons. }
  repeat split; try done; apply lookup_empty.
Qed.

End MemorySource.

(** *** Order of events *)

Section EventOrder.

Context {O QE Data Details Named Hints St W : Type}.
Context {Cache MQE MDetails MNamed MW : Type}.

Variable listeners : @Event O QE Data Details Named → list (@Listener Named Hints W).
Variable noHints : Hints.
Variable buildTransform :
  TransformOrOperations O → option RequestOptions → option string → Transform O.
Variable buildQuery :
  QueryOrExpressions QE → option RequestOptions → option string → Query QE.
Variable _update :
  Transform O → Hints → list string → St →
  Outcome (FullResponse O Data Details Named) * St.
Variable _pull :
  Query QE → Hints → list string → St →
  Outcome (FullResponse O Data Details Named) * St.

Variable cache_update :
  Transform RecordOperation → Cache →
  Cache * option TransformResult * option (list RecordOperation).
Variable memoryListeners :
  @Event RecordOperation MQE TransformResult MDetails MNamed →
  list (@Listener MNamed (ResponseHints MDetails) MW).

Abbreviation FlowSource := (@Source O QE Data Details Named St W).
Abbreviation newTo s := (fun t : Transform _ => transform_id t ∉ transformLog s).


End EventOrder.

End Memory.

(** ** Scenarios: a memory source over the example cache *)

Module Scenarios.
Import Records RequestFlow Memory.

(** Modelled from the spec: [update] and [patch] of the record cache are
    not in the sources. Section 4.3: the operators are applied in order,
    and the inverse operations are collected in reverse of the forward
    order; the inverse of [addRecord] is [removeRecord], the inverse of
    [removeRecord] is [addRecord] of the record removed, the inverse of
    [replaceKey] and [replaceAttribute] sets the prior value. The other
    operations, and a replaced member that was absent, get no inverse
    here: the scenarios do not use them. *)
Definition inverseOperation (cache : SyncRecordCache) (op : RecordOperation)
  : list RecordOperation :=
  match op with
  | AddRecordOperation r => [RemoveRecordOperation (identityOf r)]
  | RemoveRecordOperation i =>
      match getRecordSync cache i with
      | Some current => [AddRecordOperation current]
      | None => []
      end
  | ReplaceKeyOperation i key _ =>
      match current ← getRecordSync cache i; deepGet_key current key with
      | Some prior => [ReplaceKeyOperation i key prior]
      | None => []
      end
  | ReplaceAttributeOperation i attribute _ =>
      match current ← getRecordSync cache i;
            deepGet_attribute current attribute with
      | Some prior => [ReplaceAttributeOperation i attribute prior]
      | None => []
      end
  | _ => []
  end.

(** An operator that throws leaves the cache as it is. *)
Definition patchOne (cache : SyncRecordCache) (op : RecordOperation)
  : SyncRecordCache * RecordOperationResult :=
  match applyOperator cache op with
  | Ok result => result
  | Throw _ => (cache, None)
  end.

Definition cache_patch (ops : list RecordOperation) (cache : SyncRecordCache)
  : SyncRecordCache :=
  foldl (fun cache op => (patchOne cache op).1) cache ops.

Definition cache_update
    (t : Transform RecordOperation) (cache : SyncRecordCache)
  : SyncRecordCache * option TransformResult * option (list RecordOperation) :=
  let '(cache', results, inverseOperations) :=
    foldl (fun '(cache, results, inverseOperations) op =>
             let inverse := inverseOperation cache op in
             let '(cache', result) := patchOne cache op in
             (cache', results ++ [result], inverse ++ inverseOperations))
      (cache, [], []) (operations t) in
  (cache', Some (RMany results), Some inverseOperations).

(** [buildTransform]: a transform with an id is kept when no options and
    no id are passed; otherwise a transform is built, with the id passed
    or a generated one. *)
Definition buildTransform
    (transformOrOperations : TransformOrOperations RecordOperation)
    (options : option RequestOptions) (id : option string)
  : Transform RecordOperation :=
  match transformOrOperations, options, id with
  | IsTransform t, None, None => t
  | IsTransform t, _, _ => mkTransform (default "uuid" id) (operations t) options
  | IsOperations ops, _, _ => mkTransform (default "uuid" id) ops options
  end.

(** The listeners count the [transform] events in their world, and one
    of them rejects the update of the transform called "rejected". *)
Definition listeners
    (ev : @Event RecordOperation unit TransformResult unit unit)
  : list (@Listener unit (ResponseHints unit) nat) :=
  match ev with
  | EvTransform _ => [fun h w => (Ok None, h, S w)]
  | EvBeforeUpdate t =>
      if String.eqb (transform_id t) "rejected"
      then [fun h w => (Throw (OtherError "rejected"), h, w)]
      else []
  | _ => []
  end.

Abbreviation ExampleSource :=
  (@Source RecordOperation unit TransformResult unit unit
     (@MemoryState SyncRecordCache) nat).

Definition _update
  : Transform RecordOperation → ResponseHints unit → list string →
    @MemoryState SyncRecordCache →
    Outcome (FullResponse RecordOperation TransformResult unit unit)
    * @MemoryState SyncRecordCache :=
  Memory._update cache_update getRecordSync
    (fun _ _ => Throw (TypeError "identity.type is undefined")).

Definition update
    (x : TransformOrOperations RecordOperation)
    (options : option RequestOptions) (id : option string) (s : ExampleSource)
  : Outcome (Resolved RecordOperation TransformResult unit unit)
    * ExampleSource :=
  RequestFlow.update listeners noHints buildTransform _update x options id s.

Definition _sync (t : Transform RecordOperation) (s : ExampleSource)
  : ExampleSource :=
  Memory._sync cache_update listeners t s.

Definition rebase (sources : nat → ExampleSource) (self : ExampleSource)
  : Outcome unit * ExampleSource :=
  Memory.rebase cache_update cache_patch sources self.

Definition rollback (id : string) (s : ExampleSource)
  : Outcome unit * ExampleSource :=
  Memory.rollback cache_patch id 0 s.

Definition io : OrbitRecord :=
  mkRecord "moon" "io" None (Some {[ "name" := JStr "Io" ]}) None.

Definition addJupiter : Transform RecordOperation :=
  mkTransform "add-jupiter" [AddRecordOperation jupiter] None.
Definition addIo : Transform RecordOperation :=
  mkTransform "add-io" [AddRecordOperation io] None.
Definition nameA : Transform RecordOperation :=
  mkTransform "name-a"
    [ReplaceAttributeOperation jupiterId "name" (JStr "A")] None.
Definition nameB : Transform RecordOperation :=
  mkTransform "name-b"
    [ReplaceAttributeOperation jupiterId "name" (JStr "B")] None.
Definition rejected : Transform RecordOperation :=
  mkTransform "rejected" [RemoveRecordOperation jupiterId] None.

(** A new source; the parent when it is forked, with Jupiter; the fork
    after one and after two local transforms, which rename Jupiter to "A"
    and then to "B"; the parent after it added Io. The parent is source 0
    of the store. *)
Definition newSource : ExampleSource :=
  mkSource [] [] (mkMemory schemaCache None None ∅ ∅) 0.
Definition parentAtFork : ExampleSource := _sync addJupiter newSource.
Definition forkAtStart : ExampleSource := fork id 0 parentAtFork 0.
Definition forkOne : ExampleSource := _sync nameA forkAtStart.
Definition forkTwo : ExampleSource := _sync nameB forkOne.
Definition parentNow : ExampleSource := _sync addIo parentAtFork.
Definition sources (ref : nat) : ExampleSource := parentNow.

(** The name of Jupiter in a source's cache. *)
Definition nameOfJupiter (s : ExampleSource) : option JSValue :=
  current ← getRecordSync (_cache (state s)) jupiterId;
  deepGet_attribute current "name".

(** A pullable source that pulls nothing, to complete the instance. *)
Definition buildQuery
    (x : QueryOrExpressions unit) (options : option RequestOptions)
    (id : option string) : Query unit :=
  match x with
  | IsQuery q => q
  | IsExpressions exprs => mkQuery (default "uuid" id) exprs options
  end.

Definition _pull
    (q : Query unit) (hints : ResponseHints unit) (log : list string)
    (st : @MemoryState SyncRecordCache)
  : Outcome (FullResponse RecordOperation TransformResult unit unit)
    * @MemoryState SyncRecordCache :=
  (Ok (mkResponse None None None None), st).

Lemma parentNow_log : transformLog parentNow = ["add-jupiter"; "add-io"].
Proof. vm_compute. reflexivity. Defined.

(** *** Deduplication *)


(** *** rebase *)

Lemma rebase_without_base_witness :
  _base (state parentNow) = None
  ∧ (rebase sources parentNow).2 = parentNow.
Proof.
  split; [reflexivity|].
  unfold rebase.
  by rewrite (Memory.rebase_without_base_throws cache_update cache_patch
                sources parentNow eq_refl).
Defined.

Lemma rebase_steps_witness :
  _base (state forkTwo) = Some 0
  ∧ (rebase sources forkTwo).1 = Ok ()
  ∧ transformLog (rebase sources forkTwo).2 = transformLog forkTwo
  ∧ _forkPoint (state (rebase sources forkTwo).2) = Some "add-io".
Proof.
  split; [reflexivity|].
  assert (newBaseTransforms (sources 0) (_forkPoint (state forkTwo))
          = Ok (Some <$> [addIo])) as Hbase by (vm_compute; reflexivity).
  assert (allTransforms forkTwo = Some <$> [nameA; nameB]) as Hlocal
    by (vm_compute; reflexivity).
  destruct (Memory.rebase_steps cache_update cache_patch sources forkTwo 0
              [addIo] [nameA; nameB] eq_refl Hbase Hlocal)
    as (reapplied & s' & _ & Hrun & Hs' & Hlog & _).
  unfold rebase. rewrite Hrun. simpl. split; [done|]. split; [done|].
  by rewrite Hs'.
Defined.

(** C2 as the spec states it fails on a fork with one local transform:
    undoing "name-a" clears it from the history, but [rebase] does not
    remove it from the fork's log, where the steps of the spec leave the
    log empty. *)
Lemma rebase_keeps_local_ids_in_log :
  _transforms (undoAll cache_patch (reverse [nameA]) (state forkOne))
    !! "name-a" = None
  ∧ transformLog (rebase sources forkOne).2 = ["name-a"]
  ∧ transformLog
      (rebase_as_specified cache_update cache_patch parentNow forkOne
         [addIo] [nameA]) = []
  ∧ rebase sources forkOne
    ≠ (Ok (), rebase_as_specified cache_update cache_patch parentNow forkOne
                [addIo] [nameA]).
Proof.
  do 3 (split; [vm_compute; reflexivity|]).
  intros Heq. apply (f_equal (fun r => transformLog r.2)) in Heq.
  vm_compute in Heq. discriminate Heq.
Qed.

(** With two local transforms the in-place [reverse] shows: the fork
    renamed Jupiter to "A" and then to "B", and after [rebase] the name is
    "A", because "name-b" is applied again before "name-a". Replaying the
    locals in their original order gives "B". *)
Lemma rebase_reapplies_locals_in_reverse :
  nameOfJupiter forkTwo = Some (JStr "B")
  ∧ nameOfJupiter (rebase sources forkTwo).2 = Some (JStr "A")
  ∧ nameOfJupiter
      (rebase_as_specified cache_update cache_patch parentNow forkTwo
         [addIo] [nameA; nameB]) = Some (JStr "B").
Proof. repeat split; vm_compute; reflexivity. Qed.

(** *** rollback *)


(** *** merge *)

Lemma merge_witness :
  mergeSelection forkTwo (mkMergeOptions (Some false) None None)
  = Ok [Some nameA; Some nameB]
  ∧ Memory.merge cache_update getRecordSync
      (fun _ _ => Throw (TypeError "identity.type is undefined"))
      (fun ops => ops) buildTransform listeners
      forkTwo (mkMergeOptions (Some false) None None) parentNow
    = update
        (IsTransform
           (mkTransform "uuid" (operations nameA ++ operations nameB) None))
        None None parentNow.
Proof.
  assert (mergeSelection forkTwo (mkMergeOptions (Some false) None None)
          = Ok (Some <$> [nameA; nameB])) as Hsel by (vm_compute; reflexivity).
  split; [exact Hsel|].
  exact (proj1 (Memory.merge_updates_with_one_reduced_transform
                  cache_update getRecordSync
                  (fun _ _ => Throw (TypeError "identity.type is undefined"))
                  (fun ops => ops) buildTransform listeners
                  forkTwo parentNow (mkMergeOptions (Some false) None None)
                  [nameA; nameB] Hsel)).
Defined.

(** *** Events *)


(** The update of "rejected" is rejected by a listener of
    [beforeUpdate]: [updateFail] is emitted and the error comes back. *)
Lemma failed_update_witness :
  (transform_id rejected ∉ transformLog parentNow)
  ∧ ∃ s' new,
      update (IsTransform rejected) None None parentNow
      = (Throw (OtherError "rejected"), s')
      ∧ trace s'
        = trace parentNow ++ Fired (EvBeforeUpdate rejected) :: new
      ∧ observed new
        = firedAndSettled (EvUpdateFail rejected (OtherError "rejected")).
Proof.
  assert (transform_id rejected ∉ transformLog parentNow) as Hnew
    by (apply (bool_decide_unpack _); vm_compute; exact I).
  split; [exact Hnew|].
  set (thrown := fulfillInSeries listeners (EvBeforeUpdate rejected)
                   noHints parentNow).
  assert (throwsIn listeners noHints (EvBeforeUpdate rejected)
            (_update rejected) parentNow (OtherError "rejected") thrown.2)
    as Hthrow.
  { left. exists noHints. vm_compute. reflexivity. }
  destruct (proj1 (RequestFlow.failed_request_emits_fail_and_rethrows
                     listeners noHints buildTransform buildQuery _update _pull)
              (IsTransform rejected) None None parentNow
              (OtherError "rejected") thrown.2 Hnew Hthrow)
    as (s' & Hrun & _ & new & Htrace & Hobserved & _).
  exists s', new. split; [exact Hrun|]. split; [|exact Hobserved].
  rewrite Htrace.
  change (trace thrown.2)
    with (trace parentNow ++ [Fired (EvBeforeUpdate rejected)]).
  by rewrite <- app_assoc.
Defined.

(** *** One update, and the history *)

(** The parent renames Jupiter once; the same update again changes
    nothing. *)
Lemma memory_update_once_witness :
  (transform_id nameA ∉ transformLog parentNow)
  ∧ transformLog (update (IsTransform nameA) None None parentNow).2
    = ["add-jupiter"; "add-io"; "name-a"]
  ∧ update (IsTransform nameA) None None
      (update (IsTransform nameA) None None parentNow).2
    = (Ok (ResolvedTransforms []),
       (update (IsTransform nameA) None None parentNow).2).
Proof.
  assert (transform_id nameA ∉ transformLog parentNow) as Hnew
    by (apply (bool_decide_unpack _); vm_compute; exact I).
  split; [exact Hnew|].
  set (run := update (IsTransform nameA) None None parentNow).
  set (resolved := match run.1 with
                   | Ok r => r
                   | Throw _ => ResolvedTransforms []
                   end).
  assert (run = (Ok resolved, run.2)) as Hrun by (vm_compute; reflexivity).
  destruct (Memory.memory_update_once cache_update getRecordSync
              (fun _ _ => Throw (TypeError "identity.type is undefined"))
              buildTransform listeners (IsTransform nameA) None None
              parentNow run.2 resolved Hnew Hrun)
    as (Hlog & _ & _ & _ & Hagain).
  split; [|exact Hagain].
  rewrite Hlog, parentNow_log. reflexivity.
Defined.

(** The parent's history is complete, and stays so when it renames
    Jupiter. *)
Lemma history_invariants_witness :
  NoDup (transformLog parentNow)
  ∧ historyComplete parentNow
  ∧ NoDup (transformLog (_sync nameA parentNow))
  ∧ historyComplete (_sync nameA parentNow).
Proof.
  assert (NoDup (transformLog parentNow)) as Hnd
    by (apply (bool_decide_unpack _); vm_compute; exact I).
  assert (historyComplete parentNow) as Hcomplete
    by (apply historyComplete_check; vm_compute; reflexivity).
  split; [exact Hnd|]. split; [exact Hcomplete|].
  exact (proj1 (Memory.history_invariants_kept cache_update cache_patch
                  listeners parentNow Hnd Hcomplete) nameA).
Defined.

(** The fork with two local transforms rebases on the parent that added
    Io. *)
Lemma rebase_of_complete_sources_witness :
  historyComplete forkTwo
  ∧ historyComplete (sources 0)
  ∧ ∃ s', rebase sources forkTwo = (Ok (), s')
          ∧ transformLog s' = ["name-a"; "name-b"]
          ∧ historyComplete s'.
Proof.
  assert (historyComplete forkTwo) as Hfork
    by (apply historyComplete_check; vm_compute; reflexivity).
  assert (historyComplete (sources 0)) as Hbase
    by (apply historyComplete_check; vm_compute; reflexivity).
  assert (from_option (fun id => id ∈ transformLog (sources 0)) True
            (_forkPoint (state forkTwo))) as Hpoint.
  { change ("add-jupiter" ∈ transformLog parentNow).
    rewrite parentNow_log. apply elem_of_cons. by left. }
  split; [exact Hfork|]. split; [exact Hbase|].
  destruct (Memory.rebase_of_complete_sources cache_update cache_patch
              sources forkTwo 0 eq_refl Hfork Hbase Hpoint)
    as (s' & Hrun & Hlog & Hcomplete).
  exists s'. split; [exact Hrun|]. split; [|exact Hcomplete].
  rewrite Hlog. vm_compute. reflexivity.
Defined.

(** A fork of the parent as it is now has nothing to rebase. *)
Lemma rebase_without_new_base_transforms_witness :
  NoDup (transformLog (sources 0))
  ∧ rebase sources (fork id 0 (sources 0) 0)
    = (Ok (), fork id 0 (sources 0) 0).
Proof.
  assert (NoDup (transformLog (sources 0))) as Hnd
    by (apply (bool_decide_unpack _); vm_compute; exact I).
  split; [exact Hnd|].
  exact (proj1 (Memory.rebase_without_new_base_transforms cache_update
                  cache_patch id sources 0 0 Hnd)).
Defined.

(** After Jupiter, the source adds Io and renames Jupiter; the cache
    undoes both, and rolling back to "add-jupiter" restores the cache. *)
Lemma rollback_undoes_run_witness :
  undoable cache_update cache_patch
    (_cache (state (_sync addJupiter newSource))) [addIo; nameA]
  ∧ ∃ s',
      rollback "add-jupiter"
        (_sync nameA (_sync addIo (_sync addJupiter newSource)))
      = (Ok (), s')
      ∧ transformLog s' = ["add-jupiter"]
      ∧ _cache (state s') = _cache (state (_sync addJupiter newSource)).
Proof.
  assert (NoDup (transform_id <$> addJupiter :: [addIo; nameA])) as Hnd
    by (apply (bool_decide_unpack _); vm_compute; exact I).
  assert (Forall (fun t => transform_id t ∉ transformLog newSource)
            (addJupiter :: [addIo; nameA])) as Hfresh.
  { repeat (apply Forall_cons; split; [apply not_elem_of_nil|]).
    apply Forall_nil_2. }
  assert (undoable cache_update cache_patch
            (_cache (state (_sync addJupiter newSource))) [addIo; nameA])
    as Hundo.
  { cbn [undoable]. repeat split; vm_compute; reflexivity. }
  split; [exact Hundo|].
  destruct (Memory.rollback_undoes_run cache_update cache_patch listeners
              newSource addJupiter [addIo; nameA] Hnd Hfresh Hundo)
    as (s' & Hrun & Hlog & Hcache & _).
  exists s'. split; [exact Hrun|]. split; [|exact Hcache].
  rewrite Hlog. vm_compute. reflexivity.
Defined.

(** The parent merges the fork's two renames: one id, "uuid", is added
    to its log. *)
Lemma merge_logs_one_transform_witness :
  ("uuid" ∉ transformLog parentNow)
  ∧ transformLog
      (Memory.merge cache_update getRecordSync
         (fun _ _ => Throw (TypeError "identity.type is undefined"))
         (fun ops => ops) buildTransform listeners
         forkTwo (mkMergeOptions (Some false) None None) parentNow).2
    = ["add-jupiter"; "add-io"; "uuid"].
Proof.
  assert ("uuid" ∉ transformLog parentNow) as Hnew
    by (apply (bool_decide_unpack _); vm_compute; exact I).
  split; [exact Hnew|].
  assert (mergeSelection forkTwo (mkMergeOptions (Some false) None None)
          = Ok (Some <$> [nameA; nameB])) as Hsel by (vm_compute; reflexivity).
  set (run := Memory.merge cache_update getRecordSync
                (fun _ _ => Throw (TypeError "identity.type is undefined"))
                (fun ops => ops) buildTransform listeners
                forkTwo (mkMergeOptions (Some false) None None) parentNow).
  set (resolved := match run.1 with
                   | Ok r => r
                   | Throw _ => ResolvedTransforms []
                   end).
  assert (run = (Ok resolved, run.2)) as Hrun by (vm_compute; reflexivity).
  destruct (Memory.merge_logs_one_transform cache_update getRecordSync
              (fun _ _ => Throw (TypeError "identity.type is undefined"))
              (fun ops => ops) buildTransform listeners
              forkTwo parentNow run.2 (mkMergeOptions (Some false) None None)
              [nameA; nameB] resolved Hsel eq_refl Hnew Hrun)
    as (Hlog & _ & _).
  rewrite Hlog, parentNow_log. reflexivity.
Defined.

End Scenarios.
